(** * Siamese-RPN training loss: module/loss_module.py and net/network.py

    Tensors of one batch are nested lists: a batch of per-anchor rows.
    A per-anchor box tensor of shape (batch, anchors, 4) is a
    [list (list vec4)]; the tf elementwise operations act on operands of
    one shape, so they are modelled as zips of equal-shaped lists. Real
    numbers stand for the float32 values of the graph. *)

From Stdlib Require Import String Ascii Reals Psatz ZArith QArith Qminmax Bool List.
Import ListNotations.

Open Scope R_scope.

(** ** Tensors *)

Record vec4 := V4 { e0 : R; e1 : R; e2 : R; e3 : R }.

Definition v4map (f : R -> R) (a : vec4) : vec4 :=
  V4 (f (e0 a)) (f (e1 a)) (f (e2 a)) (f (e3 a)).

Definition v4map2 (f : R -> R -> R) (a b : vec4) : vec4 :=
  V4 (f (e0 a) (e0 b)) (f (e1 a) (e1 b)) (f (e2 a) (e2 b)) (f (e3 a) (e3 b)).

Definition v4sum (a : vec4) : R := e0 a + e1 a + e2 a + e3 a.

Fixpoint map2 {A B C} (f : A -> B -> C) (l1 : list A) (l2 : list B) : list C :=
  match l1, l2 with
  | a :: l1', b :: l2' => f a b :: map2 f l1' l2'
  | _, _ => []
  end.

(** A (batch, anchors, 4) tensor. *)
Definition tensor3 := list (list vec4).

(** [tf.multiply], [tf.subtract], [tf.add] of two tensors of one shape. *)
Definition ew2 (f : R -> R -> R) (t1 t2 : tensor3) : tensor3 :=
  map2 (map2 (v4map2 f)) t1 t2.

(** A function applied elementwise ([tf.abs], multiplication by a scalar, ...). *)
Definition ew1 (f : R -> R) (t : tensor3) : tensor3 :=
  map (map (v4map f)) t.

Definition sum_list (l : list R) : R := fold_right Rplus 0 l.

(** [tf.reduce_sum] over all axes. *)
Definition reduce_sum (t : tensor3) : R :=
  sum_list (map (fun row => sum_list (map v4sum row)) t).

(** ** Regression loss, loss_module.py lines 27-34 *)

Definition mask_of (x : R) : R := if Rlt_dec (Rabs x) 1 then 1 else 0.
Definition option1_of (x : R) : R := x * x * 0.5.
Definition option2_of (x : R) : R := Rabs x - 0.5.

(** The [smooth_l1] tensor of line 33. *)
Definition smooth_l1_of (pre_box target_box target_inside_weight target_outside_weight : tensor3)
  : tensor3 :=
  let inside := ew2 Rmult target_inside_weight (ew2 Rminus pre_box target_box) in
  let mask := ew1 mask_of inside in
  let option1 := ew1 option1_of inside in
  let option2 := ew1 option2_of inside in
  ew2 Rmult
    (ew2 Rplus (ew2 Rmult option1 mask) (ew2 Rmult option2 (ew1 (fun m => 1 - m) mask)))
    target_outside_weight.

(** [reg_loss = tf.reduce_sum(smooth_l1) * 10]. *)
Definition reg_loss_of (pre_box target_box target_inside_weight target_outside_weight : tensor3)
  : R :=
  reduce_sum (smooth_l1_of pre_box target_box target_inside_weight target_outside_weight) * 10.

(** ** Classification loss, loss_module.py lines 19-25 *)

(** Runtime errors of the graph (an index out of range in [tf.gather_nd],
    a label outside [0, 2) in the cross-entropy) are [None]. *)
Definition obind {A B} (o : option A) (f : A -> option B) : option B :=
  match o with Some a => f a | None => None end.
Notation "x <- c1 ;; c2" := (obind c1 (fun x => c2))
  (at level 61, c1 at next level, right associativity).

Fixpoint mapM {A B} (f : A -> option B) (l : list A) : option (list B) :=
  match l with
  | [] => Some []
  | a :: l' => b <- f a ;; bs <- mapM f l' ;; Some (b :: bs)
  end.

Fixpoint map2M {A B C} (f : A -> B -> option C) (l1 : list A) (l2 : list B)
  : option (list C) :=
  match l1, l2 with
  | [], [] => Some []
  | a :: l1', b :: l2' => c <- f a b ;; cs <- map2M f l1' l2' ;; Some (c :: cs)
  | _, _ => None
  end.

(** [tf.where(tf.not_equal(label, v))] on a (batch, anchors) tensor: the
    coordinates of the entries different from [v], in row-major order. *)
Fixpoint where_row (v : Z) (b i : nat) (row : list Z) : list (nat * nat) :=
  match row with
  | [] => []
  | l :: row' =>
      if Z.eqb l v then where_row v b (S i) row'
      else (b, i) :: where_row v b (S i) row'
  end.

Fixpoint where_rows (v : Z) (b : nat) (rows : list (list Z)) : list (nat * nat) :=
  match rows with
  | [] => []
  | row :: rows' => where_row v b 0 row ++ where_rows v (S b) rows'
  end.

Definition where_not_equal (label : list (list Z)) (v : Z) : list (nat * nat) :=
  where_rows v 0 label.

(** [tf.gather_nd(t, idx)] with (batch, anchor) coordinates. *)
Definition gather_nd {A} (t : list (list A)) (idx : list (nat * nat)) : option (list A) :=
  mapM (fun bi => row <- nth_error t (fst bi) ;; nth_error row (snd bi)) idx.

(** Two-class softmax cross-entropy of the logits [s] against label [l]:
    [-log(softmax(s)[l])]. *)
Definition softmax_xent (s : R * R) (l : Z) : R :=
  ln (exp (fst s) + exp (snd s)) - (if Z.eqb l 1 then snd s else fst s).

Definition sparse_softmax_cross_entropy_with_logits (s : R * R) (l : Z) : option R :=
  if (0 <=? l)%Z && (l <? 2)%Z then Some (softmax_xent s l) else None.

Definition reduce_mean (l : list R) : R := sum_list l / INR (length l).

Definition cls_loss_of (label : list (list Z)) (pre_score : list (list (R * R))) : option R :=
  let pre_score_keep := where_not_equal label (-1) in
  pre_score_valid <- gather_nd pre_score pre_score_keep ;;
  label_valid <- gather_nd label pre_score_keep ;;
  xs <- map2M sparse_softmax_cross_entropy_with_logits pre_score_valid label_valid ;;
  Some (reduce_mean xs).

(** ** Anchor matcher [Anchor_tf.pos_neg_anchor2]

    Modelled from the spec: module/anchor_tf.py is not part of the sources;
    the matcher below follows spec section 4.2, steps 1-7. Boxes are corner
    boxes with rational coordinates. *)

Record box := Box { x1 : Q; y1 : Q; x2 : Q; y2 : Q }.

(** Modelled from the spec: the configuration of [Anchor_tf()] (IoU
    thresholds 0.7 and 0.3, 16 foreground anchors, a batch of 256). *)
Record Anchor_tf := {
  rpn_positive_overlap : Q;
  rpn_negative_overlap : Q;
  rpn_fg_num : nat;
  rpn_batchsize : nat }.

Definition Anchor_tf_new : Anchor_tf :=
  {| rpn_positive_overlap := 7 # 10; rpn_negative_overlap := 3 # 10;
     rpn_fg_num := 16; rpn_batchsize := 256 |}.

Section Overlaps.
Local Open Scope Q_scope.

Definition Qltb (x y : Q) : bool := negb (Qle_bool y x).

Definition area (b : box) : Q := (x2 b - x1 b) * (y2 b - y1 b).

(** Modelled from the spec: step 1, intersection over union. *)
Definition iou (a g : box) : Q :=
  let iw := Qmax 0 (Qmin (x2 a) (x2 g) - Qmax (x1 a) (x1 g)) in
  let ih := Qmax 0 (Qmin (y2 a) (y2 g) - Qmax (y1 a) (y1 g)) in
  let inter := iw * ih in
  inter / (area a + area g - inter).

Definition list_max (l : list Q) : Q :=
  match l with [] => 0 | x :: l' => fold_left Qmax l' x end.

(** Modelled from the spec: steps 2-4, before sampling. *)
Definition pre_label (cfg : Anchor_tf) (max_overlap o : Q) : Z :=
  if Qltb (rpn_positive_overlap cfg) o || Qeq_bool o max_overlap then 1
  else if Qltb o (rpn_negative_overlap cfg) then 0
  else -1.

End Overlaps.

Definition indices_of (v : Z) (lab : list Z) : list nat :=
  filter (fun i => Z.eqb (nth i lab (-1)%Z) v) (seq 0 (length lab)).

Definition memb (i : nat) (l : list nat) : bool := existsb (Nat.eqb i) l.

(** Modelled from the spec: step 5. The random draw is an ordering [perm]
    of the anchor indices; the first [cap] members of [pool] in that order
    are kept. *)
Definition sample (cap : nat) (perm pool : list nat) : list nat :=
  firstn cap (filter (fun j => memb j pool) perm).

Definition subsample_labels (cfg : Anchor_tf) (perm : list nat) (pre : list Z) : list Z :=
  let fg_keep := sample (rpn_fg_num cfg) perm (indices_of 1 pre) in
  let bg_keep := sample (rpn_batchsize cfg - length fg_keep) perm (indices_of 0 pre) in
  map (fun i => if memb i fg_keep then 1%Z else if memb i bg_keep then 0%Z else (-1)%Z)
      (seq 0 (length pre)).

Definition labels_one (cfg : Anchor_tf) (perm : list nat) (anchors : list box) (g : box)
  : list Z :=
  let overlaps := map (fun a => iou a g) anchors in
  let m := list_max overlaps in
  subsample_labels cfg perm (map (pre_label cfg m) overlaps).

(** The labels of [labels_one] before sampling. *)
Definition pre_labels (cfg : Anchor_tf) (anchors : list box) (g : box) : list Z :=
  let overlaps := map (fun a => iou a g) anchors in
  map (pre_label cfg (list_max overlaps)) overlaps.

(** Modelled from the spec: step 6, center offsets normalised by the anchor
    size and log ratios of the sizes. *)
Definition bbox_transform (a g : box) : vec4 :=
  let aw := Q2R (x2 a - x1 a) in
  let ah := Q2R (y2 a - y1 a) in
  let gw := Q2R (x2 g - x1 g) in
  let gh := Q2R (y2 g - y1 g) in
  let acx := Q2R (x1 a) + 0.5 * aw in
  let acy := Q2R (y1 a) + 0.5 * ah in
  let gcx := Q2R (x1 g) + 0.5 * gw in
  let gcy := Q2R (y1 g) + 0.5 * gh in
  V4 ((gcx - acx) / aw) ((gcy - acy) / ah) (ln (gw / aw)) (ln (gh / ah)).

Definition count_fg (lab : list Z) : nat := length (filter (fun l => Z.eqb l 1%Z) lab).

Definition zero4 : vec4 := V4 0 0 0 0.
Definition one4 : vec4 := V4 1 1 1 1.

Record match_out := MatchOut {
  m_label : list Z;
  m_target : list vec4;
  m_inside : list vec4;
  m_outside : list vec4 }.

(** Modelled from the spec: steps 6-7 on top of the labels; the outside
    weight is [1 / max(1, num_foreground)] on every entry. *)
Definition match_one (cfg : Anchor_tf) (perm : list nat) (anchors : list box) (g : box)
  : match_out :=
  let lab := labels_one cfg perm anchors g in
  let w := / Rmax 1 (INR (count_fg lab)) in
  MatchOut lab
    (map2 (fun l a => if Z.eqb l 1%Z then bbox_transform a g else zero4) lab anchors)
    (map (fun l => if Z.eqb l 1%Z then one4 else zero4) lab)
    (map (fun _ => V4 w w w w) lab).

(** The framework's random state: the orderings it will yield, and how many
    have been drawn. *)
Record rng := Rng { draws : nat -> list nat; drawn : nat }.

Definition draw (r : rng) : list nat * rng := (draws r (drawn r), Rng (draws r) (S (drawn r))).

Fixpoint draw_n (r : rng) (n : nat) : list (list nat) * rng :=
  match n with
  | O => ([], r)
  | S n' => let '(p, r1) := draw r in let '(ps, r2) := draw_n r1 n' in (p :: ps, r2)
  end.

(** Modelled from the spec: one draw per batch element; returns
    (label, target_box, target_inside_weight, target_outside_weight, all_box). *)
Definition pos_neg_anchor2 (cfg : Anchor_tf) (r : rng) (gt : list box) (anchors : list box)
  : (list (list Z) * tensor3 * tensor3 * tensor3 * list (list box)) * rng :=
  let '(perms, r') := draw_n r (length gt) in
  let per := map2 (fun perm g => match_one cfg perm anchors g) perms gt in
  ((map m_label per, map m_target per, map m_inside per, map m_outside per,
    map (fun _ => anchors) per), r').

(** ** [Loss_op], loss_module.py *)

(** The generator [Anchor(49,49).anchors] (module/gen_ancor.py, not in the
    sources) is the argument [Anchor] of the constructor. *)
Record Loss_op := { anchors : list box; anchor_tf : Anchor_tf }.

Definition Loss_op_init (Anchor : nat -> nat -> list box) : Loss_op :=
  {| anchors := Anchor 49%nat 49%nat; anchor_tf := Anchor_tf_new |}.

(** The four returned tensors. Each is evaluated on its own in the graph, so
    a runtime error of the classification branch ([None]) does not reach the
    regression loss. The reshapes of [pre_score] to (batch, -1, 2) and of
    [pre_box] to (batch, -1, 4) are taken as given: the inputs come in
    those shapes. *)
Record loss_out := LossOut {
  cls_loss : option R;
  reg_loss : R;
  out_label : list (list Z);
  out_target_box : tensor3 }.

(** [Loss_op.loss]: the object is passed and returned (no field of [self] is
    assigned), the random state is threaded through the matcher. *)
Definition loss (self : Loss_op) (r : rng) (gt : list box)
  (pre_score : list (list (R * R))) (pre_box : tensor3) : loss_out * (Loss_op * rng) :=
  let '((label, target_box, target_inside_weight, target_outside_weight, all_box), r') :=
    pos_neg_anchor2 (anchor_tf self) r gt (anchors self) in
  (LossOut (cls_loss_of label pre_score)
           (reg_loss_of pre_box target_box target_inside_weight target_outside_weight)
           label target_box, (self, r')).

(** ** Layer chaining of net/network.py *)

Module Net.

Local Open Scope nat_scope.
Local Open Scope string_scope.

Inductive exn :=
| RuntimeError (msg : string)
| KeyError (msg : string)
| AssertionError.

Section Network.

(** The tensors the layers produce. *)
Context {tensor : Type}.

(** The two mutable fields the decorator works on: [self.terminals] and the
    dict [self.layers] (an association list in insertion order). The other
    fields are only read by the layer operations. *)
Record Network := { terminals : list tensor; layers : list (string * tensor) }.

(** An argument of [feed]: a layer name or a layer. *)
Inductive fed := FedName (s : string) | FedLayer (t : tensor).

(** [layer_input]: the single terminal, or the list of terminals. *)
Inductive layer_input := Single (t : tensor) | Many (ts : list tensor).

Fixpoint dict_get (d : list (string * tensor)) (k : string) : option tensor :=
  match d with
  | [] => None
  | (k', v) :: d' => if String.eqb k' k then Some v else dict_get d' k
  end.

(** [d[k] = v]: an existing key keeps its place, a new one is appended. *)
Fixpoint dict_set (d : list (string * tensor)) (k : string) (v : tensor)
  : list (string * tensor) :=
  match d with
  | [] => [(k, v)]
  | (k', v') :: d' => if String.eqb k' k then (k', v) :: d' else (k', v') :: dict_set d' k v
  end.

(** A method call: its exception or its value, and the object afterwards. *)
Definition result (A : Type) : Type := ((exn + A) * Network)%type.

(** The loop of [feed] appending to the emptied [self.terminals]; it stops
    at the first unknown name, with what was appended so far. *)
Fixpoint feed_loop (lay : list (string * tensor)) (args : list fed) (acc : list tensor)
  : option exn * list tensor :=
  match args with
  | [] => (None, acc)
  | FedName s :: args' =>
      match dict_get lay s with
      | None => (Some (KeyError ("Unknown layer name fed: " ++ s)), acc)
      | Some t => feed_loop lay args' (acc ++ [t])
      end
  | FedLayer t :: args' => feed_loop lay args' (acc ++ [t])
  end.

Definition feed (self : Network) (args : list fed) : result unit :=
  match args with
  | [] => (inl AssertionError, self)
  | _ =>
      let '(e, terms) := feed_loop (layers self) args [] in
      let self' := {| terminals := terms; layers := layers self |} in
      match e with
      | Some x => (inl x, self')
      | None => (inr tt, self')
      end
  end.

Fixpoint digits_aux (fuel n : nat) (acc : string) : string :=
  match fuel with
  | O => acc
  | S fuel' =>
      let acc' := String (ascii_of_nat (48 + n mod 10)) acc in
      if Nat.ltb n 10 then acc' else digits_aux fuel' (n / 10) acc'
  end.

(** ['%d' % n]. *)
Definition string_of_nat (n : nat) : string := digits_aux (S n) n EmptyString.

(** [get_unique_name]: [prefix_k] with [k] one more than the number of layer
    names starting with [prefix]. *)
Definition get_unique_name (self : Network) (prefix : string) : string :=
  let ident := length (filter (fun kv => String.prefix prefix (fst kv)) (layers self)) + 1 in
  prefix ++ "_" ++ string_of_nat ident.

(** A layer operation [op(self, layer_input, *args, name=...)]: it reads the
    object and returns the output tensor, or raises. The operations of
    network.py assign no field of the object. *)
Definition layer_op : Type := Network -> layer_input -> string -> exn + tensor.

Definition input_of (terms : list tensor) : layer_input :=
  match terms with [t] => Single t | _ => Many terms end.

(** [kwargs.setdefault('name', self.get_unique_name(op.__name__))]. *)
Definition layer_name (op_name : string) (self : Network) (kw_name : option string) : string :=
  match kw_name with Some n => n | None => get_unique_name self op_name end.

(** [layer(op)]: the decorated method, called with the keyword [name] or
    without it. *)
Definition layer_decorated (op_name : string) (op : layer_op) (self : Network)
  (kw_name : option string) : result unit :=
  let name := layer_name op_name self kw_name in
  match terminals self with
  | [] => (inl (RuntimeError ("No input variables found for layer " ++ name ++ ".")), self)
  | terms =>
      match op self (input_of terms) name with
      | inl e => (inl e, self)
      | inr layer_output =>
          feed {| terminals := terminals self; layers := dict_set (layers self) name layer_output |}
               [FedLayer layer_output]
      end
  end.

End Network.

Section Methods.
Context {tensor : Type}.

(** [get_output]: [self.terminals[-1]]; [None] is the [IndexError] of an
    empty list. *)
Definition get_output (self : @Network tensor) : option tensor :=
  match rev (terminals self) with [] => None | t :: _ => Some t end.

(** What the loop of [feed] appends for one argument, [None] for an
    unknown layer name. *)
Definition resolve (lay : list (string * tensor)) (a : @fed tensor) : option tensor :=
  match a with FedName s => dict_get lay s | FedLayer t => Some t end.

(** The name [get_unique_name] builds from the count [k]. *)
Definition auto_name (prefix : string) (k : nat) : string := prefix ++ "_" ++ string_of_nat k.

(** Decimal reading of a string of digits, most significant first. *)
Fixpoint read_decimal (s : string) (v : nat) : nat :=
  match s with
  | EmptyString => v
  | String c s' => read_decimal s' (10 * v + (nat_of_ascii c - 48))
  end.

(** The names of the table starting with [prefix] are exactly the
    generated names [prefix_1], ..., [prefix_n], and no name occurs twice. *)
Definition auto_named (prefix : string) (lay : list (string * tensor)) (n : nat) : Prop :=
  NoDup (map fst lay)
  /\ forall k, (In k (map fst lay) /\ String.prefix prefix k = true)
               <-> exists j, 1 <= j <= n /\ k = auto_name prefix j.

End Methods.


Section Load.
Context {array : Type}.

(** The graph's variables: the shape of variable [op_name/param_name], or
    [None] when the graph has no such variable. *)
Variable var_shape : string -> string -> option (list nat).
Variable shape_of : array -> list nat.











End Load.



End Net.

(** ** The regression loss as the spec states it *)

Fixpoint map4 {A B C D E} (f : A -> B -> C -> D -> E)
  (l1 : list A) (l2 : list B) (l3 : list C) (l4 : list D) : list E :=
  match l1, l2, l3, l4 with
  | a :: l1', b :: l2', c :: l3', d :: l4' => f a b c d :: map4 f l1' l2' l3' l4'
  | _, _, _, _ => []
  end.

(** Spec 4.3: [0.5 d^2] when [|d| < 1], [|d| - 0.5] otherwise. *)
Definition smooth_l1_spec (d : R) : R :=
  if Rlt_dec (Rabs d) 1 then 0.5 * d ^ 2 else Rabs d - 0.5.

(** One anchor: [d = inside_weight * (predicted_box - target_box)] per
    dimension, transformed, times the outside weight, summed over the 4
    dimensions. *)
Definition anchor_reg_spec (p t i o : vec4) : R :=
  smooth_l1_spec (e0 i * (e0 p - e0 t)) * e0 o
  + smooth_l1_spec (e1 i * (e1 p - e1 t)) * e1 o
  + smooth_l1_spec (e2 i * (e2 p - e2 t)) * e2 o
  + smooth_l1_spec (e3 i * (e3 p - e3 t)) * e3 o.

(** Summed over all anchors of all batch elements, times 10. *)
Definition reg_loss_spec (pre_box target_box inside_w outside_w : tensor3) : R :=
  10 * sum_list (map4 (fun p t i o => sum_list (map4 anchor_reg_spec p t i o))
                      pre_box target_box inside_w outside_w).

(** The entry at (batch element [b], anchor [i]). *)
Definition at2 (t : tensor3) (b i : nat) : option vec4 :=
  match nth_error t b with Some row => nth_error row i | None => None end.

(** The tensor without the entry of anchor [i] of batch element [b]. *)
Fixpoint remove_at {A} (i : nat) (l : list A) : list A :=
  match l, i with
  | [], _ => []
  | _ :: l', O => l'
  | x :: l', S i' => x :: remove_at i' l'
  end.

Fixpoint update_nth {A} (b : nat) (f : A -> A) (l : list A) : list A :=
  match l, b with
  | [], _ => []
  | x :: l', O => f x :: l'
  | x :: l', S b' => x :: update_nth b' f l'
  end.

Definition remove_anchor (b i : nat) (t : tensor3) : tensor3 := update_nth b (remove_at i) t.

(** Every anchor of a row taken twice. *)
Definition dup_anchors (t : tensor3) : tensor3 :=
  map (flat_map (fun a => [a; a])) t.

(** The elementwise transform of the code, before the outside weight. *)
Definition blend (x : R) : R := option1_of x * mask_of x + option2_of x * (1 - mask_of x).

(** ** The classification loss as the spec states it *)

(** The number of anchors whose label is not -1 (ignore). *)
Definition valid_count (label : list (list Z)) : nat :=
  fold_right plus O (map (fun row => length (filter (fun l => negb (Z.eqb l (-1))) row)) label).

(** The cross-entropy summed over the anchors whose label is not -1. *)
Definition valid_xent_sum (label : list (list Z)) (pre_score : list (list (R * R))) : R :=
  sum_list (map2 (fun lr sr =>
    sum_list (map2 (fun l s => if Z.eqb l (-1) then 0 else softmax_xent s l) lr sr))
    label pre_score).

(** Spec 4.3: the mean over exactly the valid anchors. *)
Definition cls_loss_spec (label : list (list Z)) (pre_score : list (list (R * R))) : R :=
  valid_xent_sum label pre_score / INR (valid_count label).

(** The labels the matcher gives, computed on their own. *)
Definition pos_neg_labels (cfg : Anchor_tf) (r : rng) (gt : list box) (anchors : list box)
  : list (list Z) :=
  map2 (fun perm g => labels_one cfg perm anchors g) (fst (draw_n r (length gt))) gt.

Definition is_valid {A} (p : Z * A) : bool := negb (Z.eqb (fst p) (-1)).

(** The (label, score) pairs of the valid anchors, in row-major order. *)
Definition valid_pairs {A} (label : list (list Z)) (t : list (list A)) : list (Z * A) :=
  concat (map2 (fun lr sr => filter is_valid (combine lr sr)) label t).

Definition label_range (label : list (list Z)) : Prop :=
  Forall (Forall (fun l => l = (-1)%Z \/ l = 0%Z \/ l = 1%Z)) label.

(** A sequence of calls of [Loss_op.loss] on one object. *)
Fixpoint run_losses (self : Loss_op) (r : rng)
  (calls : list (list box * list (list (R * R)) * tensor3)) : list loss_out * (Loss_op * rng) :=
  match calls with
  | [] => ([], (self, r))
  | (gt, pre_score, pre_box) :: calls' =>
      let '(o, (self', r')) := loss self r gt pre_score pre_box in
      let '(os, st) := run_losses self' r' calls' in
      (o :: os, st)
  end.

(** ** Inputs of the examples *)

(** A batch of one element with two anchors. *)
Definition pb_ex : tensor3 := [[V4 1 2 3 4; V4 5 6 7 8]].
Definition tb_ex : tensor3 := [[V4 1 2 3 4; V4 0 0 0 0]].
Definition iw_ex : tensor3 := [[one4; one4]].
Definition iw0_ex : tensor3 := [[zero4; one4]].
Definition ow_ex : tensor3 := [[V4 2 2 2 2; V4 2 2 2 2]].

Definition lo_one : Loss_op := {| anchors := [Box 0 0 10 10]; anchor_tf := Anchor_tf_new |}.
Definition rng_id : rng := Rng (fun _ => [0%nat]) 0.

(** Seventeen anchors side by side, all away from the box (0,0)-(1,1): every
    IoU is 0, so all of them share the maximum. *)
Definition anchors17 : list box :=
  map (fun k => Box (inject_Z (10 * Z.of_nat k)) 100 (inject_Z (10 * Z.of_nat k) + 5) 105)
      (seq 0 17).
Definition gt_far : box := Box 0 0 1 1.
Definition rng_seq : rng := Rng (fun _ => seq 0 17) 0.

(** A random state whose first draw orders the anchors 0..16 and whose later
    draws order them backwards. *)
Definition rng_two : rng :=
  Rng (fun n => if Nat.eqb n 0 then seq 0 17 else rev (seq 0 17)) 0.
Definition lo17 : Loss_op := {| anchors := anchors17; anchor_tf := Anchor_tf_new |}.
Definition score17 : list (list (R * R)) := [repeat (0, 0) 17].
Definition box17 : tensor3 := [repeat zero4 17].

Definition net0 : Net.Network := {| Net.terminals := [4%nat]; Net.layers := [] |}.
Definition op7 : @Net.layer_op nat := fun _ _ _ => inr 7%nat.

(** A network fed with its input ["data"]. *)
Definition net_data : @Net.Network nat :=
  {| Net.terminals := [4%nat]; Net.layers := [("data"%string, 4%nat)] |}.


(** A network whose terminals [[9]] are not among the fed layers. *)
Definition net_two : @Net.Network nat :=
  {| Net.terminals := [9%nat]; Net.layers := [("data"%string, 4%nat); ("label"%string, 5%nat)] |}.

(** A network with two automatically named [conv] layers. *)
Definition net_conv : @Net.Network nat :=
  {| Net.terminals := [6%nat];
     Net.layers := [("data"%string, 4%nat); ("conv_1"%string, 5%nat); ("conv_2"%string, 6%nat)] |}.

(** Inside weights that are zero on the second anchor, whose predicted box
    [V4 5 6 7 8] differs from its target [V4 0 0 0 0]. *)
Definition iw1_ex : tensor3 := [[one4; zero4]].

(** Labels and scores of one batch element with two anchors. *)
Definition label_ex : list (list Z) := [[1%Z; (-1)%Z]].
Definition score_ex : list (list (R * R)) := [[(0, 0); (3, 1)]].
Definition score_eq_ex : list (list (R * R)) := [[(0, 0); (2, 2)]].

(** ** Proofs: list and tensor lemmas *)

Lemma map2_map_l {A A' B C} (f : A' -> B -> C) (g : A -> A') l1 l2 :
  map2 f (map g l1) l2 = map2 (fun x y => f (g x) y) l1 l2.
Proof.
  revert l2; induction l1 as [|a l1 IH]; intros [|b l2]; simpl; try rewrite IH; reflexivity.
Qed.

Lemma map2_map_r {A B B' C} (f : A -> B' -> C) (g : B -> B') l1 l2 :
  map2 f l1 (map g l2) = map2 (fun x y => f x (g y)) l1 l2.
Proof.
  revert l2; induction l1 as [|a l1 IH]; intros [|b l2]; simpl; try rewrite IH; reflexivity.
Qed.

Lemma map2_map_same {A B C D} (f : B -> C -> D) (g : A -> B) (h : A -> C) l :
  map2 f (map g l) (map h l) = map (fun x => f (g x) (h x)) l.
Proof. induction l as [|a l IH]; simpl; try rewrite IH; reflexivity. Qed.

Lemma map2_ext {A B C} (f g : A -> B -> C) l1 l2 :
  (forall a b, f a b = g a b) -> map2 f l1 l2 = map2 g l1 l2.
Proof.
  intros Hfg; revert l2; induction l1 as [|a l1 IH]; intros [|b l2]; simpl;
    try rewrite Hfg, IH; reflexivity.
Qed.

Lemma map2_map {A B C D} (g : C -> D) (f : A -> B -> C) l1 l2 :
  map g (map2 f l1 l2) = map2 (fun a b => g (f a b)) l1 l2.
Proof.
  revert l2; induction l1 as [|a l1 IH]; intros [|b l2]; simpl; try rewrite IH; reflexivity.
Qed.

Lemma map_map2_4 {A B C D W X Y Z'} (g : Y -> Z') (F : X -> D -> Y) (G : C -> W -> X)
  (H : A -> B -> W) l1 l2 l3 l4 :
  map g (map2 F (map2 G l3 (map2 H l1 l2)) l4)
  = map4 (fun a b c d => g (F (G c (H a b)) d)) l1 l2 l3 l4.
Proof.
  revert l2 l3 l4; induction l1 as [|a l1 IH]; intros [|b l2] [|c l3] [|d l4]; simpl;
    try rewrite IH; reflexivity.
Qed.

Lemma map4_ext {A B C D E} (f g : A -> B -> C -> D -> E) l1 l2 l3 l4 :
  (forall a b c d, f a b c d = g a b c d) -> map4 f l1 l2 l3 l4 = map4 g l1 l2 l3 l4.
Proof.
  intros Hfg; revert l2 l3 l4; induction l1 as [|a l1 IH]; intros [|b l2] [|c l3] [|d l4];
    simpl; try rewrite Hfg, IH; reflexivity.
Qed.

Lemma nth_error_map2 {A B C} (f : A -> B -> C) l1 l2 n a b :
  nth_error l1 n = Some a -> nth_error l2 n = Some b -> nth_error (map2 f l1 l2) n = Some (f a b).
Proof.
  revert l1 l2; induction n as [|n IH]; intros [|a' l1] [|b' l2]; simpl; try discriminate.
  - intros Ha Hb; inversion Ha; inversion Hb; reflexivity.
  - apply IH.
Qed.

Lemma ew1_ew1 f g t : ew1 f (ew1 g t) = ew1 (fun x => f (g x)) t.
Proof.
  unfold ew1; rewrite map_map; apply map_ext; intro row.
  rewrite map_map; apply map_ext; intros [a b c d]; reflexivity.
Qed.

Lemma ew2_ew1_same F f g t : ew2 F (ew1 f t) (ew1 g t) = ew1 (fun x => F (f x) (g x)) t.
Proof.
  unfold ew2, ew1; rewrite map2_map_same; apply map_ext; intro row.
  rewrite map2_map_same; apply map_ext; intros [a b c d]; reflexivity.
Qed.

Lemma ew2_ew1_l F f t u : ew2 F (ew1 f t) u = ew2 (fun x y => F (f x) y) t u.
Proof.
  unfold ew2, ew1; rewrite map2_map_l; apply map2_ext; intros r1 r2.
  rewrite map2_map_l; apply map2_ext; intros [a b c d] [a' b' c' d']; reflexivity.
Qed.

Lemma ew2_ew1_r F f t u : ew2 F t (ew1 f u) = ew2 (fun x y => F x (f y)) t u.
Proof.
  unfold ew2, ew1; rewrite map2_map_r; apply map2_ext; intros r1 r2.
  rewrite map2_map_r; apply map2_ext; intros [a b c d] [a' b' c' d']; reflexivity.
Qed.

Lemma ew2_ext F G t u : (forall x y, F x y = G x y) -> ew2 F t u = ew2 G t u.
Proof.
  intros HFG; unfold ew2; apply map2_ext; intros r1 r2; apply map2_ext.
  intros [a b c d] [a' b' c' d']; unfold v4map2; simpl; rewrite !HFG; reflexivity.
Qed.

(** The chain of lines 28-33 is one elementwise function of [inside] and
    the outside weight. *)
Lemma smooth_l1_of_fused pb tb iw ow :
  smooth_l1_of pb tb iw ow = ew2 (fun x o => blend x * o) (ew2 Rmult iw (ew2 Rminus pb tb)) ow.
Proof.
  unfold smooth_l1_of.
  rewrite (ew1_ew1 (fun m => 1 - m) mask_of), !ew2_ew1_same, ew2_ew1_l.
  reflexivity.
Qed.

Lemma blend_spec x : blend x = smooth_l1_spec x.
Proof.
  unfold blend, smooth_l1_spec, mask_of, option1_of, option2_of.
  destruct (Rlt_dec (Rabs x) 1); ring.
Qed.

Lemma blend_0 : blend 0 = 0.
Proof.
  rewrite blend_spec; unfold smooth_l1_spec; rewrite Rabs_R0.
  destruct (Rlt_dec 0 1); [ring | lra].
Qed.

Lemma reg_loss_of_spec pb tb iw ow : reg_loss_of pb tb iw ow = reg_loss_spec pb tb iw ow.
Proof.
  unfold reg_loss_of, reduce_sum, reg_loss_spec.
  rewrite smooth_l1_of_fused; unfold ew2.
  rewrite map_map2_4, Rmult_comm; f_equal; f_equal.
  apply map4_ext; intros p t i o.
  rewrite map_map2_4; f_equal.
  apply map4_ext; intros [p0 p1 p2 p3] [t0 t1 t2 t3] [i0 i1 i2 i3] [o0 o1 o2 o3].
  unfold anchor_reg_spec, v4sum, v4map2; simpl; rewrite !blend_spec; reflexivity.
Qed.

Lemma loss_reg_loss self r gt pre_score pre_box :
  let '((_, target_box, iw, ow, _), _) := pos_neg_anchor2 (anchor_tf self) r gt (anchors self) in
  reg_loss (fst (loss self r gt pre_score pre_box)) = reg_loss_of pre_box target_box iw ow.
Proof.
  unfold loss; destruct (pos_neg_anchor2 (anchor_tf self) r gt (anchors self))
    as [[[[[label target_box] iw] ow] all_box] r']; reflexivity.
Qed.

(** C1: the regression loss returned by [Loss_op.loss] is 10 times the sum,
    over all anchors and their 4 dimensions, of the smoothed-L1 transform of
    [d = inside_weight * (predicted_box - target_box)] ([0.5 d^2] when
    [|d| < 1], [|d| - 0.5] otherwise) times the outside weight, for the
    targets and weights of the matcher. *)
Theorem loss_reg_loss_smooth_l1 self r gt pre_score pre_box :
  let '((_, target_box, iw, ow, _), _) := pos_neg_anchor2 (anchor_tf self) r gt (anchors self) in
  reg_loss (fst (loss self r gt pre_score pre_box)) = reg_loss_spec pre_box target_box iw ow.
Proof.
  pose proof (loss_reg_loss self r gt pre_score pre_box) as H.
  destruct (pos_neg_anchor2 (anchor_tf self) r gt (anchors self))
    as [[[[[label target_box] iw] ow] all_box] r'].
  rewrite H; apply reg_loss_of_spec.
Qed.

(** ** Proofs: single entries of the loss tensor *)

Lemma at2_ew2 f t u b i x y :
  at2 t b i = Some x -> at2 u b i = Some y -> at2 (ew2 f t u) b i = Some (v4map2 f x y).
Proof.
  unfold at2, ew2.
  destruct (nth_error t b) as [rt|] eqn:Et; [|discriminate].
  destruct (nth_error u b) as [ru|] eqn:Eu; [|discriminate].
  intros Hx Hy; rewrite (nth_error_map2 _ _ _ _ _ _ Et Eu).
  apply nth_error_map2; assumption.
Qed.

Lemma map2_remove_at {A B C} (f : A -> B -> C) l1 l2 i a c :
  nth_error l1 i = Some a -> nth_error l2 i = Some c ->
  map2 f (remove_at i l1) (remove_at i l2) = remove_at i (map2 f l1 l2).
Proof.
  revert l1 l2; induction i as [|i IH]; intros [|a' l1] [|c' l2]; simpl; try discriminate;
    intros Ha Hc; try reflexivity.
  f_equal; eapply IH; eassumption.
Qed.

Lemma map2_update_nth {A B C} (F : A -> B -> C) ha hb hc l1 l2 b x y :
  nth_error l1 b = Some x -> nth_error l2 b = Some y -> F (ha x) (hb y) = hc (F x y) ->
  map2 F (update_nth b ha l1) (update_nth b hb l2) = update_nth b hc (map2 F l1 l2).
Proof.
  revert l1 l2; induction b as [|b IH]; intros [|x' l1] [|y' l2]; simpl; try discriminate;
    intros Hx Hy HF.
  - inversion Hx; inversion Hy; subst; rewrite HF; reflexivity.
  - f_equal; eapply IH; eassumption.
Qed.

Lemma sum_remove_at {A} (g : A -> R) l i x :
  nth_error l i = Some x -> sum_list (map g (remove_at i l)) + g x = sum_list (map g l).
Proof.
  revert l; induction i as [|i IH]; intros [|x' l]; simpl; try discriminate; intros Hx.
  - inversion Hx; subst; ring.
  - rewrite <- (IH l Hx); ring.
Qed.

Lemma sum_update_nth {A} (g : A -> R) h l b x d :
  nth_error l b = Some x -> g (h x) + d = g x ->
  sum_list (map g (update_nth b h l)) + d = sum_list (map g l).
Proof.
  revert l; induction b as [|b IH]; intros [|x' l]; simpl; try discriminate; intros Hx Hg.
  - inversion Hx; subst; rewrite <- Hg; ring.
  - rewrite <- (IH l Hx Hg); ring.
Qed.

Lemma ew2_remove_anchor F t u b i x y :
  at2 t b i = Some x -> at2 u b i = Some y ->
  ew2 F (remove_anchor b i t) (remove_anchor b i u) = remove_anchor b i (ew2 F t u).
Proof.
  unfold at2, ew2, remove_anchor.
  destruct (nth_error t b) as [rt|] eqn:Et; [|discriminate].
  destruct (nth_error u b) as [ru|] eqn:Eu; [|discriminate].
  intros Hx Hy; eapply map2_update_nth; [eassumption | eassumption |].
  eapply map2_remove_at; eassumption.
Qed.

Lemma reduce_sum_remove_anchor t b i x :
  at2 t b i = Some x -> reduce_sum (remove_anchor b i t) + v4sum x = reduce_sum t.
Proof.
  unfold at2, reduce_sum, remove_anchor.
  destruct (nth_error t b) as [row|] eqn:Et; [|discriminate]; intros Hx.
  eapply sum_update_nth; [eassumption |].
  apply sum_remove_at; assumption.
Qed.

(** An anchor whose four entries of [inside] are zero: its entries of
    [smooth_l1] are zero and removing it leaves the regression loss as it is. *)
Lemma reg_loss_zero_inside pb tb iw ow b i p t iv ov :
  at2 pb b i = Some p -> at2 tb b i = Some t -> at2 iw b i = Some iv -> at2 ow b i = Some ov ->
  v4map2 Rmult iv (v4map2 Rminus p t) = zero4 ->
  reg_loss_of (remove_anchor b i pb) (remove_anchor b i tb) (remove_anchor b i iw)
              (remove_anchor b i ow) = reg_loss_of pb tb iw ow
  /\ at2 (smooth_l1_of pb tb iw ow) b i = Some zero4.
Proof.
  intros Hp Ht Hi Ho Hz.
  assert (Hd := at2_ew2 Rminus _ _ _ _ _ _ Hp Ht).
  assert (Hx := at2_ew2 Rmult _ _ _ _ _ _ Hi Hd).
  assert (Hs := at2_ew2 (fun x o => blend x * o) _ _ _ _ _ _ Hx Ho).
  rewrite Hz in Hs.
  assert (Hzero : v4map2 (fun x o => blend x * o) zero4 ov = zero4).
  { destruct ov; unfold v4map2, zero4; simpl; rewrite blend_0; f_equal; ring. }
  rewrite Hzero in Hs.
  unfold reg_loss_of; rewrite !smooth_l1_of_fused.
  rewrite (ew2_remove_anchor Rminus _ _ _ _ _ _ Hp Ht).
  rewrite (ew2_remove_anchor Rmult _ _ _ _ _ _ Hi Hd).
  rewrite (ew2_remove_anchor _ _ _ _ _ _ _ Hx Ho).
  split; [| exact Hs].
  rewrite <- (reduce_sum_remove_anchor _ _ _ _ Hs).
  unfold v4sum, zero4; simpl; ring.
Qed.

Lemma ew1_ext f g t : (forall x, f x = g x) -> ew1 f t = ew1 g t.
Proof.
  intros Hfg; unfold ew1; apply map_ext; intro row; apply map_ext.
  intros [a b c d]; unfold v4map; rewrite !Hfg; reflexivity.
Qed.

Lemma sum_map2_scale {A B} (c : R) (g h : A -> B -> R) l1 l2 :
  (forall a b, g a b = c * h a b) -> sum_list (map2 g l1 l2) = c * sum_list (map2 h l1 l2).
Proof.
  intros Hgh; revert l2; induction l1 as [|a l1 IH]; intros [|b l2]; simpl; try ring.
  rewrite Hgh, IH; ring.
Qed.

Lemma reduce_sum_scale c F t u :
  reduce_sum (ew2 (fun x y => c * F x y) t u) = c * reduce_sum (ew2 F t u).
Proof.
  unfold reduce_sum, ew2; rewrite !map2_map.
  apply sum_map2_scale; intros r1 r2; rewrite !map2_map.
  apply sum_map2_scale; intros [a b c0 d] [a' b' c' d'].
  unfold v4sum, v4map2; simpl; ring.
Qed.

Lemma map2_dup {A B C} (f : A -> B -> C) l1 l2 :
  map2 f (flat_map (fun a => [a; a]) l1) (flat_map (fun b => [b; b]) l2)
  = flat_map (fun c => [c; c]) (map2 f l1 l2).
Proof.
  revert l2; induction l1 as [|a l1 IH]; intros [|b l2]; simpl; try rewrite IH; reflexivity.
Qed.

Lemma map_dup {A B} (f : A -> B) l :
  map f (flat_map (fun a => [a; a]) l) = flat_map (fun b => [b; b]) (map f l).
Proof. induction l as [|a l IH]; simpl; try rewrite IH; reflexivity. Qed.

Lemma ew2_dup F t u : ew2 F (dup_anchors t) (dup_anchors u) = dup_anchors (ew2 F t u).
Proof.
  unfold ew2, dup_anchors; rewrite map2_map_l, map2_map_r, map2_map.
  apply map2_ext; intros r1 r2; apply map2_dup.
Qed.

Lemma ew1_dup f t : ew1 f (dup_anchors t) = dup_anchors (ew1 f t).
Proof.
  unfold ew1, dup_anchors; rewrite !map_map; apply map_ext; intro row; apply map_dup.
Qed.

Lemma reduce_sum_dup t : reduce_sum (dup_anchors t) = 2 * reduce_sum t.
Proof.
  unfold reduce_sum, dup_anchors; rewrite map_map.
  induction t as [|row t IH]; simpl; [ring|].
  rewrite IH.
  assert (Hrow : sum_list (map v4sum (flat_map (fun a => [a; a]) row))
                 = 2 * sum_list (map v4sum row)).
  { induction row as [|a row IHr]; simpl; [ring|]. rewrite IHr; ring. }
  rewrite Hrow; ring.
Qed.

Lemma reg_loss_of_scale_outside pb tb iw ow c :
  reg_loss_of pb tb iw (ew1 (Rmult c) ow) = c * reg_loss_of pb tb iw ow.
Proof.
  unfold reg_loss_of; rewrite !smooth_l1_of_fused, ew2_ew1_r.
  rewrite (ew2_ext _ (fun x y => c * (blend x * y))) by (intros; ring).
  rewrite reduce_sum_scale; ring.
Qed.

Lemma derivable_pt_lim_value f x l l' :
  derivable_pt_lim f x l -> l = l' -> derivable_pt_lim f x l'.
Proof. intros H <-; exact H. Qed.

Lemma option1_derive x : derivable_pt_lim option1_of x x.
Proof.
  apply (derivable_pt_lim_ext (fun y => y ^ 2 * 0.5)).
  { intro z; unfold option1_of; ring. }
  eapply derivable_pt_lim_value.
  - apply derivable_pt_lim_scal_right, derivable_pt_lim_pow.
  - simpl; lra.
Qed.

Lemma option2_derive x l :
  derivable_pt_lim Rabs x l -> derivable_pt_lim option2_of x l.
Proof.
  intros HR.
  apply (derivable_pt_lim_ext (minus_fct Rabs (fct_cte 0.5))).
  { intro z; reflexivity. }
  eapply derivable_pt_lim_value.
  - apply derivable_pt_lim_minus; [exact HR | apply derivable_pt_lim_const].
  - ring.
Qed.

(** ** C3-C6: the regression loss *)

(** C3: the two branches of the smoothed-L1 transform meet at [|d| = 1]:
    [0.5 d^2] ([option1]) and [|d| - 0.5] ([option2]) both equal 0.5 at
    [d = 1] and [d = -1], and so does the masked combination of line 33;
    their slopes agree there, 1 at [d = 1] and -1 at [d = -1] (slope 1 in
    [|d|]). *)
Theorem smooth_l1_branches_meet :
  option1_of 1 = 0.5 /\ option2_of 1 = 0.5 /\
  option1_of (-1) = 0.5 /\ option2_of (-1) = 0.5 /\
  blend 1 = 0.5 /\ blend (-1) = 0.5 /\
  derivable_pt_lim option1_of 1 1 /\ derivable_pt_lim option2_of 1 1 /\
  derivable_pt_lim option1_of (-1) (-1) /\ derivable_pt_lim option2_of (-1) (-1).
Proof.
  assert (Ha1 : Rabs 1 = 1) by (apply Rabs_R1).
  assert (Ham1 : Rabs (-1) = 1) by (unfold Rabs; destruct (Rcase_abs (-1)); lra).
  unfold option1_of, option2_of.
  repeat split.
  - lra.
  - rewrite Ha1; lra.
  - lra.
  - rewrite Ham1; lra.
  - rewrite blend_spec; unfold smooth_l1_spec; rewrite Ha1.
    destruct (Rlt_dec 1 1); lra.
  - rewrite blend_spec; unfold smooth_l1_spec; rewrite Ham1.
    destruct (Rlt_dec 1 1); lra.
  - apply option1_derive.
  - apply option2_derive, Rabs_derive_1; lra.
  - apply option1_derive.
  - apply option2_derive, Rabs_derive_2; lra.
Qed.

(** C4: an anchor whose predicted box equals its target box contributes 0
    to the regression loss, whatever its inside and outside weights: its
    four entries of [smooth_l1] are 0, and the loss without that anchor is
    the same. *)
Theorem reg_loss_zero_residual pb tb iw ow b i p iv ov :
  at2 pb b i = Some p -> at2 tb b i = Some p -> at2 iw b i = Some iv -> at2 ow b i = Some ov ->
  reg_loss_of (remove_anchor b i pb) (remove_anchor b i tb) (remove_anchor b i iw)
              (remove_anchor b i ow) = reg_loss_of pb tb iw ow
  /\ at2 (smooth_l1_of pb tb iw ow) b i = Some zero4.
Proof.
  intros Hp Ht Hi Ho.
  apply (reg_loss_zero_inside pb tb iw ow b i p p iv ov Hp Ht Hi Ho).
  destruct iv, p; unfold v4map2, zero4; simpl; f_equal; ring.
Qed.

(** C5: an anchor whose inside weight is the zero 4-vector contributes 0 to
    the regression loss, whatever its predicted box, target box and outside
    weight. *)
Theorem reg_loss_zero_inside_weight pb tb iw ow b i p t ov :
  at2 pb b i = Some p -> at2 tb b i = Some t -> at2 iw b i = Some zero4 ->
  at2 ow b i = Some ov ->
  reg_loss_of (remove_anchor b i pb) (remove_anchor b i tb) (remove_anchor b i iw)
              (remove_anchor b i ow) = reg_loss_of pb tb iw ow
  /\ at2 (smooth_l1_of pb tb iw ow) b i = Some zero4.
Proof.
  intros Hp Ht Hi Ho.
  apply (reg_loss_zero_inside pb tb iw ow b i p t zero4 ov Hp Ht Hi Ho).
  destruct p, t; unfold v4map2, zero4; simpl; f_equal; ring.
Qed.

(** C6: the regression loss is homogeneous of degree 1 in the outside
    weight, and taking every anchor twice while halving the outside weight
    leaves it unchanged. *)
Theorem reg_loss_outside_weight_normalisation pb tb iw ow :
  (forall c, reg_loss_of pb tb iw (ew1 (Rmult c) ow) = c * reg_loss_of pb tb iw ow)
  /\ reg_loss_of (dup_anchors pb) (dup_anchors tb) (dup_anchors iw)
                 (ew1 (fun w => w / 2) (dup_anchors ow))
     = reg_loss_of pb tb iw ow.
Proof.
  split.
  - intro c; apply reg_loss_of_scale_outside.
  - rewrite (ew1_ext _ (Rmult (/ 2))) by (intro; unfold Rdiv; ring).
    rewrite reg_loss_of_scale_outside.
    unfold reg_loss_of; rewrite !smooth_l1_of_fused, !ew2_dup, reduce_sum_dup.
    field.
Qed.

Lemma reg_loss_zero_residual_witness :
  (at2 pb_ex 0 0 = Some (V4 1 2 3 4) /\ at2 tb_ex 0 0 = Some (V4 1 2 3 4)
   /\ at2 iw_ex 0 0 = Some one4 /\ at2 ow_ex 0 0 = Some (V4 2 2 2 2))
  /\ reg_loss_of (remove_anchor 0 0 pb_ex) (remove_anchor 0 0 tb_ex) (remove_anchor 0 0 iw_ex)
                 (remove_anchor 0 0 ow_ex) = reg_loss_of pb_ex tb_ex iw_ex ow_ex
  /\ at2 (smooth_l1_of pb_ex tb_ex iw_ex ow_ex) 0 0 = Some zero4.
Proof.
  split; [repeat split; reflexivity |].
  apply (reg_loss_zero_residual pb_ex tb_ex iw_ex ow_ex 0 0 (V4 1 2 3 4) one4 (V4 2 2 2 2));
    reflexivity.
Defined.

Lemma reg_loss_zero_inside_weight_witness :
  (at2 pb_ex 0 1 = Some (V4 5 6 7 8) /\ at2 tb_ex 0 1 = Some (V4 0 0 0 0)
   /\ at2 iw1_ex 0 1 = Some zero4 /\ at2 ow_ex 0 1 = Some (V4 2 2 2 2))
  /\ reg_loss_of (remove_anchor 0 1 pb_ex) (remove_anchor 0 1 tb_ex) (remove_anchor 0 1 iw1_ex)
                 (remove_anchor 0 1 ow_ex) = reg_loss_of pb_ex tb_ex iw1_ex ow_ex
  /\ at2 (smooth_l1_of pb_ex tb_ex iw1_ex ow_ex) 0 1 = Some zero4.
Proof.
  split; [repeat split; reflexivity |].
  apply (reg_loss_zero_inside_weight pb_ex tb_ex iw1_ex ow_ex 0 1 (V4 5 6 7 8) (V4 0 0 0 0)
           (V4 2 2 2 2)); reflexivity.
Defined.

(** ** Proofs: gathering the valid anchors *)

Lemma is_valid_pair {A} l (x : A) : is_valid (l, x) = negb (Z.eqb l (-1)).
Proof. reflexivity. Qed.

Lemma mapM_app {A B} (f : A -> option B) l1 l2 :
  mapM f (l1 ++ l2) = (x1 <- mapM f l1 ;; x2 <- mapM f l2 ;; Some (x1 ++ x2)).
Proof.
  induction l1 as [|a l1 IH]; simpl.
  - destruct (mapM f l2); reflexivity.
  - destruct (f a); simpl; [|reflexivity].
    rewrite IH; destruct (mapM f l1); simpl; [|reflexivity].
    destruct (mapM f l2); reflexivity.
Qed.

Lemma gather_where_row {A} (T : list (list A)) b pre lr sr :
  nth_error T b = Some (pre ++ sr) -> length lr = length sr ->
  gather_nd T (where_row (-1) b (length pre) lr) = Some (map snd (filter is_valid (combine lr sr))).
Proof.
  revert pre sr; induction lr as [|l lr IH]; intros pre [|s sr] HT Hlen; simpl in Hlen;
    try discriminate; [reflexivity|].
  assert (HT' : nth_error T b = Some ((pre ++ [s]) ++ sr)) by (rewrite <- app_assoc; exact HT).
  assert (Hl : length (pre ++ [s]) = S (length pre)) by (rewrite length_app; simpl; lia).
  specialize (IH (pre ++ [s]) sr HT'); rewrite Hl in IH.
  simpl; rewrite is_valid_pair.
  destruct (Z.eqb l (-1)); simpl.
  - apply IH; lia.
  - unfold gather_nd in *; simpl; rewrite HT.
    cbn [obind]; rewrite nth_error_app2 by lia; rewrite Nat.sub_diag; simpl.
    rewrite IH by lia; reflexivity.
Qed.

Lemma gather_where_rows {A} (T : list (list A)) preT rows trows :
  T = preT ++ trows -> Forall2 (fun l s => length l = length s) rows trows ->
  gather_nd T (where_rows (-1) (length preT) rows) = Some (map snd (valid_pairs rows trows)).
Proof.
  intros HT HF; revert preT HT; induction HF as [|lr sr rows trows Hlen HF IH];
    intros preT HT; [reflexivity|].
  assert (Happ : forall i1 i2, gather_nd T (i1 ++ i2)
                 = (x1 <- gather_nd T i1 ;; x2 <- gather_nd T i2 ;; Some (x1 ++ x2)))
    by (intros; apply mapM_app).
  assert (Hrow : nth_error T (length preT) = Some ([] ++ sr))
    by (rewrite HT, nth_error_app2, Nat.sub_diag by lia; reflexivity).
  pose proof (gather_where_row T (length preT) [] lr sr Hrow Hlen) as G; simpl in G.
  specialize (IH (preT ++ [sr])).
  rewrite length_app in IH; simpl in IH; rewrite Nat.add_1_r in IH.
  simpl; rewrite Happ, G; cbn [obind].
  rewrite IH by (rewrite HT, <- app_assoc; reflexivity).
  cbn [obind]; unfold valid_pairs; simpl; rewrite map_app; reflexivity.
Qed.

Lemma valid_pairs_self_snd {A} label (t : list (list A)) :
  Forall2 (fun l s => length l = length s) label t ->
  map snd (valid_pairs label label) = map fst (valid_pairs label t).
Proof.
  intros HF; induction HF as [|lr sr rows trows Hlen HF IH]; [reflexivity|].
  unfold valid_pairs in *; simpl; rewrite !map_app, IH; f_equal.
  clear -Hlen; revert sr Hlen; induction lr as [|l lr IH]; intros [|s sr] Hlen;
    simpl in *; try discriminate; [reflexivity|].
  rewrite !is_valid_pair.
  destruct (Z.eqb l (-1)); simpl; rewrite (IH sr) by lia; reflexivity.
Qed.

Lemma map2M_valid (pairs : list (Z * (R * R))) :
  Forall (fun p => fst p = 0%Z \/ fst p = 1%Z) pairs ->
  map2M sparse_softmax_cross_entropy_with_logits (map snd pairs) (map fst pairs)
  = Some (map (fun p => softmax_xent (snd p) (fst p)) pairs).
Proof.
  intros HF; induction HF as [|[l s] pairs Hl HF IH]; [reflexivity|].
  simpl; rewrite IH.
  unfold sparse_softmax_cross_entropy_with_logits; simpl in Hl.
  destruct Hl as [-> | ->]; reflexivity.
Qed.

Lemma valid_pairs_range {A} label (t : list (list A)) :
  label_range label -> Forall (fun p => fst p = 0%Z \/ fst p = 1%Z) (valid_pairs label t).
Proof.
  unfold valid_pairs, label_range; revert t; induction label as [|lr label IH]; intros t HF;
    [constructor|].
  inversion HF as [|? ? Hlr HF']; subst.
  destruct t as [|sr t]; [constructor|]; simpl.
  apply Forall_app; split; [|apply IH; exact HF'].
  clear -Hlr; revert sr; induction Hlr as [|l lr Hl Hlr IH]; intros [|s sr]; simpl;
    try constructor.
  rewrite is_valid_pair.
  destruct (Z.eqb l (-1)) eqn:E; simpl.
  - apply IH.
  - constructor; [|apply IH]. simpl; apply Z.eqb_neq in E; lia.
Qed.

Lemma valid_pairs_sum label t :
  Forall2 (fun l s => length l = length s) label t ->
  sum_list (map (fun p => softmax_xent (snd p) (fst p)) (valid_pairs label t))
  = valid_xent_sum label t
  /\ length (valid_pairs label t) = valid_count label.
Proof.
  unfold valid_xent_sum, valid_count, valid_pairs.
  intros HF; induction HF as [|lr sr rows trows Hlen HF [IHs IHl]]; [split; reflexivity|].
  simpl; rewrite map_app, length_app.
  assert (Hsum : forall l1 l2, sum_list (l1 ++ l2) = sum_list l1 + sum_list l2).
  { intros l1 l2; induction l1; simpl; [ring | rewrite IHl1; ring]. }
  rewrite Hsum, IHs, IHl; split; f_equal.
  - clear -Hlen; revert sr Hlen; induction lr as [|l lr IH]; intros [|s sr] Hlen;
      simpl in *; try discriminate; [reflexivity|].
    rewrite is_valid_pair.
    destruct (Z.eqb l (-1)); simpl; rewrite IH by lia; [ring | reflexivity].
  - clear -Hlen; revert sr Hlen; induction lr as [|l lr IH]; intros [|s sr] Hlen;
      simpl in *; try discriminate; [reflexivity|].
    rewrite is_valid_pair.
    destruct (Z.eqb l (-1)); simpl; rewrite IH by lia; reflexivity.
Qed.

Lemma cls_loss_of_spec label pre_score :
  Forall2 (fun l s => length l = length s) label pre_score -> label_range label ->
  cls_loss_of label pre_score = Some (cls_loss_spec label pre_score).
Proof.
  intros HF Hr.
  unfold cls_loss_of, where_not_equal.
  pose proof (gather_where_rows pre_score [] label pre_score eq_refl HF) as G1; simpl in G1.
  assert (HL : Forall2 (fun l s => length l = length s) label label).
  { clear -HF; induction HF; constructor; auto. }
  pose proof (gather_where_rows label [] label label eq_refl HL) as G2; simpl in G2.
  rewrite G1, G2; cbn [obind].
  rewrite (valid_pairs_self_snd label pre_score HF).
  rewrite (map2M_valid _ (valid_pairs_range label pre_score Hr)); simpl.
  unfold reduce_mean, cls_loss_spec; rewrite length_map.
  destruct (valid_pairs_sum label pre_score HF) as [-> ->]; reflexivity.
Qed.

(** ** Proofs: the matcher and [loss] *)

Lemma draw_n_spec r n :
  draw_n r n = (map (fun k => draws r (drawn r + k)) (seq 0 n), Rng (draws r) (drawn r + n)).
Proof.
  revert r; induction n as [|n IH]; intros [d k]; simpl.
  - rewrite Nat.add_0_r; reflexivity.
  - rewrite IH; simpl.
    rewrite Nat.add_0_r, Nat.add_succ_r, <- seq_shift, map_map.
    f_equal; f_equal; apply map_ext; intro j; f_equal; lia.
Qed.

Lemma loss_unfold self r gt pre_score pre_box :
  loss self r gt pre_score pre_box
  = (LossOut (cls_loss_of (pos_neg_labels (anchor_tf self) r gt (anchors self)) pre_score)
             (reg_loss (fst (loss self r gt pre_score pre_box)))
             (pos_neg_labels (anchor_tf self) r gt (anchors self))
             (out_target_box (fst (loss self r gt pre_score pre_box))),
     (self, snd (draw_n r (length gt)))).
Proof.
  unfold loss, pos_neg_anchor2, pos_neg_labels.
  destruct (draw_n r (length gt)) as [perms r']; simpl.
  assert (Hl : map m_label (map2 (fun perm g => match_one (anchor_tf self) perm (anchors self) g)
                                  perms gt)
               = map2 (fun perm g => labels_one (anchor_tf self) perm (anchors self) g) perms gt).
  { rewrite map2_map; apply map2_ext; intros; reflexivity. }
  rewrite Hl; reflexivity.
Qed.

Lemma subsample_labels_length cfg perm pre : length (subsample_labels cfg perm pre) = length pre.
Proof. unfold subsample_labels; rewrite length_map, length_seq; reflexivity. Qed.

Lemma labels_one_length cfg perm anchors g : length (labels_one cfg perm anchors g) = length anchors.
Proof. unfold labels_one; rewrite subsample_labels_length, !length_map; reflexivity. Qed.

Lemma labels_one_range cfg perm anchors g :
  Forall (fun l => l = (-1)%Z \/ l = 0%Z \/ l = 1%Z) (labels_one cfg perm anchors g).
Proof.
  unfold labels_one, subsample_labels; apply Forall_map, Forall_forall; intros i _.
  destruct (memb i _); [|destruct (memb i _)]; auto.
Qed.

Lemma pos_neg_labels_shape cfg r gt anchors :
  length (pos_neg_labels cfg r gt anchors) = length gt
  /\ Forall (fun row => length row = length anchors) (pos_neg_labels cfg r gt anchors)
  /\ label_range (pos_neg_labels cfg r gt anchors).
Proof.
  unfold pos_neg_labels, label_range; rewrite draw_n_spec; simpl.
  generalize (drawn r); intro k0.
  assert (Hlen : length (map (fun k => draws r (k0 + k)) (seq 0 (length gt))) = length gt)
    by (rewrite length_map, length_seq; reflexivity).
  revert Hlen; generalize (map (fun k => draws r (k0 + k)) (seq 0 (length gt))).
  induction gt as [|g gt IH]; intros [|p ps] Hlen; simpl in *; try discriminate.
  - repeat split; constructor.
  - destruct (IH ps ltac:(lia)) as [H1 [H2 H3]].
    repeat split.
    + rewrite H1; reflexivity.
    + constructor; [apply labels_one_length | exact H2].
    + constructor; [apply labels_one_range | exact H3].
Qed.

(** C2: when some anchor is not ignored, the classification loss returned
    by [Loss_op.loss] is the two-class cross-entropy summed over exactly the
    anchors whose label is not -1, divided by their number (which is then
    positive): ignored anchors are in neither the sum nor the count. The
    score tensor has the (batch, anchors, 2) shape of the labels. *)
Theorem loss_cls_loss_valid_mean self r gt pre_score pre_box :
  length pre_score = length gt ->
  Forall (fun row => length row = length (anchors self)) pre_score ->
  Exists (Exists (fun l => l <> (-1)%Z)) (pos_neg_labels (anchor_tf self) r gt (anchors self)) ->
  cls_loss (fst (loss self r gt pre_score pre_box))
  = Some (cls_loss_spec (pos_neg_labels (anchor_tf self) r gt (anchors self)) pre_score)
  /\ (0 < valid_count (pos_neg_labels (anchor_tf self) r gt (anchors self)))%nat.
Proof.
  intros Hb Hrows Hex.
  rewrite loss_unfold; simpl.
  destruct (pos_neg_labels_shape (anchor_tf self) r gt (anchors self)) as [H1 [H2 H3]].
  split.
  - apply cls_loss_of_spec; [|exact H3].
    clear Hex H3; revert pre_score Hb Hrows H1 H2.
    generalize (pos_neg_labels (anchor_tf self) r gt (anchors self)) as label.
    induction gt as [|g gt IH]; intros [|lr label] [|sr ps] Hb Hrows H1 H2;
      simpl in *; try discriminate; constructor.
    + inversion Hrows; inversion H2; subst; congruence.
    + inversion Hrows; inversion H2; subst; apply IH; auto.
  - clear -Hex; unfold valid_count.
    induction Hex as [lr label Hlr | lr label Hex IH]; simpl; [|lia].
    cut (0 < length (filter (fun l => negb (Z.eqb l (-1))) lr))%nat; [lia|].
    induction Hlr as [l lr Hl | l lr Hlr IH]; simpl.
    + apply Z.eqb_neq in Hl; rewrite Hl; simpl; lia.
    + destruct (negb (Z.eqb l (-1))); simpl; lia.
Qed.

Lemma loss_cls_loss_valid_mean_witness :
  nth_error (nth 0 (pos_neg_labels (anchor_tf lo17) rng_seq [gt_far] (anchors lo17)) []) 16
  = Some (-1)%Z
  /\ length (nth 0 (pos_neg_labels (anchor_tf lo17) rng_seq [gt_far] (anchors lo17)) []) = 17%nat
  /\ valid_count (pos_neg_labels (anchor_tf lo17) rng_seq [gt_far] (anchors lo17)) = 16%nat
  /\ cls_loss (fst (loss lo17 rng_seq [gt_far] score17 box17))
     = Some (cls_loss_spec (pos_neg_labels (anchor_tf lo17) rng_seq [gt_far] (anchors lo17))
                           score17)
  /\ (0 < valid_count (pos_neg_labels (anchor_tf lo17) rng_seq [gt_far] (anchors lo17)))%nat.
Proof.
  assert (E : pos_neg_labels (anchor_tf lo17) rng_seq [gt_far] (anchors lo17)
              = [repeat 1%Z 16 ++ [(-1)%Z]]) by (vm_compute; reflexivity).
  split; [rewrite E; reflexivity|]; split; [rewrite E; reflexivity|].
  split; [rewrite E; reflexivity|].
  apply loss_cls_loss_valid_mean.
  - reflexivity.
  - constructor; [reflexivity | constructor].
  - rewrite E; apply Exists_cons_hd, Exists_cons_hd; discriminate.
Defined.

Lemma loss_label self r gt pre_score pre_box :
  out_label (fst (loss self r gt pre_score pre_box))
  = pos_neg_labels (anchor_tf self) r gt (anchors self).
Proof. rewrite loss_unfold; reflexivity. Qed.

Lemma loss_state self r gt pre_score pre_box :
  snd (loss self r gt pre_score pre_box) = (self, snd (draw_n r (length gt))).
Proof. rewrite loss_unfold; reflexivity. Qed.

Lemma memb_In i l : memb i l = true <-> In i l.
Proof.
  unfold memb; rewrite existsb_exists; split.
  - intros [x [Hx Heq]]; apply Nat.eqb_eq in Heq; subst; exact Hx.
  - intros Hi; exists i; split; [exact Hi | apply Nat.eqb_refl].
Qed.

Lemma fold_left_Qmax_In l x : In (fold_left Qmax l x) (x :: l).
Proof.
  revert x; induction l as [|y l IH]; intros x; simpl; [left; reflexivity|].
  assert (Hm : Qmax x y = x \/ Qmax x y = y)
    by (unfold Qmax, GenericMinMax.gmax; destruct (x ?= y)%Q; auto).
  destruct (IH (Qmax x y)) as [H | H].
  - rewrite <- H; destruct Hm as [-> | ->]; simpl; auto.
  - simpl; auto.
Qed.

Lemma list_max_In l : l <> [] -> In (list_max l) l.
Proof. destruct l as [|x l]; [congruence|]; intros _; apply fold_left_Qmax_In. Qed.

(** With a draw that orders every anchor index and a positive cap, the
    labels of one ground-truth box keep a foreground anchor. *)
Lemma labels_one_has_fg cfg perm anchors g :
  (0 < rpn_fg_num cfg)%nat -> anchors <> [] ->
  (forall i, (i < length anchors)%nat -> In i perm) ->
  exists j, nth_error (labels_one cfg perm anchors g) j = Some 1%Z.
Proof.
  intros Hcap Hne Hperm.
  unfold labels_one.
  set (ov := map (fun a => iou a g) anchors).
  set (m := list_max ov).
  set (pre := map (pre_label cfg m) ov).
  assert (Hov : ov <> []) by (unfold ov; destruct anchors; simpl; congruence).
  destruct (In_nth_error _ _ (list_max_In ov Hov)) as [i0 Hi0]; fold m in Hi0.
  assert (Hpre : nth_error pre i0 = Some 1%Z).
  { unfold pre; rewrite nth_error_map, Hi0; simpl.
    unfold pre_label; rewrite Qeq_bool_refl, orb_true_r; reflexivity. }
  assert (Hlen : length pre = length anchors) by (unfold pre, ov; rewrite !length_map; reflexivity).
  assert (Hlt : (i0 < length pre)%nat) by (apply nth_error_Some; congruence).
  assert (Hpool : In i0 (indices_of 1 pre)).
  { unfold indices_of; apply filter_In; split; [apply in_seq; lia|].
    rewrite (nth_error_nth pre i0 (-1)%Z Hpre); reflexivity. }
  assert (Hin : In i0 (filter (fun j => memb j (indices_of 1 pre)) perm)).
  { apply filter_In; split; [apply Hperm; lia | apply memb_In; exact Hpool]. }
  unfold subsample_labels, sample.
  destruct (filter (fun j => memb j (indices_of 1 pre)) perm) as [|j rest] eqn:Hf;
    [destruct Hin|].
  assert (Hj : In j (filter (fun j => memb j (indices_of 1 pre)) perm)) by (rewrite Hf; left; reflexivity).
  apply filter_In in Hj; destruct Hj as [_ Hj]; apply memb_In in Hj.
  unfold indices_of in Hj; apply filter_In in Hj; destruct Hj as [Hj _]; apply in_seq in Hj.
  destruct (rpn_fg_num cfg) as [|c]; [lia|]; simpl.
  exists j; rewrite nth_error_map, nth_error_seq.
  replace (Nat.ltb j (length pre)) with true by (symmetry; apply Nat.ltb_lt; lia); simpl.
  rewrite Nat.eqb_refl; reflexivity.
Qed.

(** ** C9: the maximum-IoU rule of the matcher *)

(** C9 fails: for the non-degenerate box [gt_far], the seventeenth anchor
    has the maximum IoU but ends up ignored (-1): the draw orders every
    anchor, and sampling keeps 16 foreground anchors only. *)
Lemma matcher_max_iou_anchor_dropped :
  Qeq_bool (nth 16 (map (fun a => iou a gt_far) anchors17) 0%Q)
           (list_max (map (fun a => iou a gt_far) anchors17)) = true
  /\ (0 < area gt_far)%Q
  /\ (forall i, (i < length anchors17)%nat -> In i (draws rng_seq 0))
  /\ nth_error (nth 0 (pos_neg_labels Anchor_tf_new rng_seq [gt_far] anchors17) []) 16
     = Some (-1)%Z.
Proof.
  split; [vm_compute; reflexivity|].
  split; [reflexivity|].
  split; [| vm_compute; reflexivity].
  intros i Hi; change (In i (seq 0 17)); apply in_seq.
  unfold anchors17 in Hi; rewrite length_map, length_seq in Hi; lia.
Qed.

Lemma labels_one_pre cfg perm anchors g :
  labels_one cfg perm anchors g = subsample_labels cfg perm (pre_labels cfg anchors g).
Proof. reflexivity. Qed.

Lemma count_fg_subsample_map fk bk l :
  length (filter (fun x => Z.eqb x 1%Z)
    (map (fun i => if memb i fk then 1%Z else if memb i bk then 0%Z else (-1)%Z) l))
  = length (filter (fun i => memb i fk) l).
Proof.
  induction l as [|i l IH]; simpl; [reflexivity|].
  destruct (memb i fk); simpl; [rewrite IH; reflexivity|].
  destruct (memb i bk); simpl; exact IH.
Qed.

Lemma nth_subsample_fg cfg perm pre j :
  nth_error (subsample_labels cfg perm pre) j = Some 1%Z
  <-> (j < length pre)%nat /\ In j (sample (rpn_fg_num cfg) perm (indices_of 1 pre)).
Proof.
  unfold subsample_labels; cbv zeta; rewrite nth_error_map, nth_error_seq.
  destruct (Nat.ltb j (length pre)) eqn:E; simpl.
  - apply Nat.ltb_lt in E; rewrite <- memb_In.
    destruct (memb j (sample (rpn_fg_num cfg) perm (indices_of 1 pre))).
    + split; auto.
    + split; [|intros [_ H]; discriminate].
      destruct (memb j _); intros H; inversion H.
  - apply Nat.ltb_ge in E; split; [discriminate | lia].
Qed.

Lemma in_firstn {A} n (l : list A) x : In x (firstn n l) -> In x l.
Proof. intros H; rewrite <- (firstn_skipn n l); apply in_or_app; left; exact H. Qed.

Lemma firstn_order {A} n (L1 L2 : list A) x x' :
  ~ In x L1 -> x <> x' -> In x (firstn n (L1 ++ x' :: L2)) -> In x' (firstn n (L1 ++ x' :: L2)).
Proof.
  intros Hn Hne; rewrite !firstn_app.
  destruct (Nat.le_gt_cases n (length L1)) as [Hle | Hgt].
  - replace (n - length L1)%nat with 0%nat by lia; simpl; rewrite app_nil_r.
    intros H; apply in_firstn in H; contradiction.
  - rewrite firstn_all2 by lia.
    destruct (n - length L1)%nat as [|k] eqn:E; [lia|]; simpl.
    intros _; apply in_or_app; right; left; reflexivity.
Qed.

Lemma indices_of_In v pre j : In j (indices_of v pre) <-> nth_error pre j = Some v.
Proof.
  unfold indices_of; rewrite filter_In, in_seq; split.
  - intros [Hj Hv]; apply Z.eqb_eq in Hv; rewrite <- Hv; apply nth_error_nth'; lia.
  - intros H; assert (Hj : (j < length pre)%nat) by (apply nth_error_Some; congruence).
    split; [lia|]; rewrite (nth_error_nth pre j (-1)%Z H); apply Z.eqb_refl.
Qed.

(** C9, amended: before sampling, every anchor whose IoU equals the maximum
    (all of them on a tie) is labelled foreground, even below the positive
    threshold. Sampling keeps at most [rpn_fg_num] foreground anchors, each
    of them a foreground candidate before sampling, and keeps them in the
    order of the draw: a candidate drawn before a kept anchor is kept too.
    Each batch element keeps at least one foreground anchor when the cap is
    positive, there is an anchor and every draw orders all anchor
    indices. *)
Theorem matcher_max_iou_foreground cfg r gt anchors :
  (forall g o, In o (map (fun a => iou a g) anchors) ->
     Qeq o (list_max (map (fun a => iou a g) anchors)) ->
     pre_label cfg (list_max (map (fun a => iou a g) anchors)) o = 1%Z)
  /\ (forall perm g, (count_fg (labels_one cfg perm anchors g) <= rpn_fg_num cfg)%nat)
  /\ (forall perm g j, nth_error (labels_one cfg perm anchors g) j = Some 1%Z ->
        nth_error (pre_labels cfg anchors g) j = Some 1%Z)
  /\ (forall perm g j j' p1 p2 p3, perm = p1 ++ j' :: p2 ++ j :: p3 ->
        ~ In j (p1 ++ j' :: p2) ->
        nth_error (pre_labels cfg anchors g) j' = Some 1%Z ->
        nth_error (labels_one cfg perm anchors g) j = Some 1%Z ->
        nth_error (labels_one cfg perm anchors g) j' = Some 1%Z)
  /\ ((0 < rpn_fg_num cfg)%nat -> anchors <> [] ->
      (forall n i, (i < length anchors)%nat -> In i (draws r n)) ->
      Forall (fun row => exists j, nth_error row j = Some 1%Z) (pos_neg_labels cfg r gt anchors)).
Proof.
  split; [|split; [|split; [|split]]].
  - intros g o _ Ho; unfold pre_label.
    apply Qeq_bool_iff in Ho; rewrite Ho, orb_true_r; reflexivity.
  - intros perm g; unfold count_fg; rewrite labels_one_pre; unfold subsample_labels; cbv zeta.
    rewrite count_fg_subsample_map.
    set (fk := sample (rpn_fg_num cfg) perm (indices_of 1 (pre_labels cfg anchors g))).
    apply Nat.le_trans with (length fk).
    + apply NoDup_incl_length; [apply NoDup_filter, seq_NoDup|].
      intros i Hi; apply filter_In in Hi; apply memb_In; tauto.
    + unfold fk, sample; apply firstn_le_length.
  - intros perm g j; rewrite labels_one_pre, nth_subsample_fg; intros [_ Hj].
    unfold sample in Hj; apply in_firstn, filter_In in Hj; destruct Hj as [_ Hj].
    apply memb_In, indices_of_In in Hj; exact Hj.
  - intros perm g j j' p1 p2 p3 -> Hn Hj' Hj; rewrite labels_one_pre, nth_subsample_fg in *.
    destruct Hj as [Hlt Hj]; split; [apply nth_error_Some; congruence|].
    set (pre := pre_labels cfg anchors g) in *.
    assert (Hp : memb j' (indices_of 1 pre) = true) by (apply memb_In, indices_of_In; exact Hj').
    unfold sample in *; rewrite filter_app in *; simpl in *; rewrite Hp in *.
    apply firstn_order with (x := j).
    + intros Hin; apply filter_In in Hin; apply Hn; apply in_or_app; left; tauto.
    + intros E; subst j'; apply Hn; apply in_or_app; right; left; reflexivity.
    + exact Hj.
  - intros Hcap Hne Hperm.
    unfold pos_neg_labels; rewrite draw_n_spec; simpl.
    assert (Hp : forall p, In p (map (fun k => draws r (drawn r + k)) (seq 0 (length gt))) ->
                 forall i, (i < length anchors)%nat -> In i p).
    { intros p Hin; apply in_map_iff in Hin; destruct Hin as [k [<- _]]; apply Hperm. }
    revert Hp; generalize (map (fun k => draws r (drawn r + k)) (seq 0 (length gt))).
    induction gt as [|g gt IH]; intros [|p ps] Hp; simpl; try constructor.
    + apply labels_one_has_fg; auto; apply Hp; left; reflexivity.
    + apply IH; intros q Hq; apply Hp; right; exact Hq.
Qed.

Lemma matcher_max_iou_foreground_witness :
  (seq 0 17 = [0; 1; 2] ++ 3 :: [4; 5; 6; 7; 8; 9; 10; 11; 12; 13; 14] ++ 15 :: [16])%nat
  /\ ~ In 15%nat ([0; 1; 2] ++ 3 :: [4; 5; 6; 7; 8; 9; 10; 11; 12; 13; 14])%nat
  /\ nth_error (pre_labels Anchor_tf_new anchors17 gt_far) 3 = Some 1%Z
  /\ nth_error (labels_one Anchor_tf_new (seq 0 17) anchors17 gt_far) 15 = Some 1%Z
  /\ nth_error (labels_one Anchor_tf_new (seq 0 17) anchors17 gt_far) 3 = Some 1%Z
  /\ (0 < rpn_fg_num Anchor_tf_new)%nat /\ anchors17 <> []
  /\ (forall n i, (i < length anchors17)%nat -> In i (draws rng_seq n))
  /\ Forall (fun row => exists j, nth_error row j = Some 1%Z)
            (pos_neg_labels Anchor_tf_new rng_seq [gt_far] anchors17).
Proof.
  destruct (matcher_max_iou_foreground Anchor_tf_new rng_seq [gt_far] anchors17)
    as [_ [_ [_ [Hord Hfg]]]].
  assert (H1 : (seq 0 17 = [0; 1; 2] ++ 3 :: [4; 5; 6; 7; 8; 9; 10; 11; 12; 13; 14] ++ 15 :: [16])%nat)
    by reflexivity.
  assert (H2 : ~ In 15%nat ([0; 1; 2] ++ 3 :: [4; 5; 6; 7; 8; 9; 10; 11; 12; 13; 14])%nat).
  { intros H; apply memb_In in H; vm_compute in H; discriminate. }
  assert (H3 : nth_error (pre_labels Anchor_tf_new anchors17 gt_far) 3 = Some 1%Z)
    by (vm_compute; reflexivity).
  assert (H4 : nth_error (labels_one Anchor_tf_new (seq 0 17) anchors17 gt_far) 15 = Some 1%Z)
    by (vm_compute; reflexivity).
  assert (H5 : (0 < rpn_fg_num Anchor_tf_new)%nat) by (vm_compute; lia).
  assert (H6 : anchors17 <> []) by discriminate.
  assert (H7 : forall n i, (i < length anchors17)%nat -> In i (draws rng_seq n)).
  { intros n i Hi; change (In i (seq 0 17)); apply in_seq.
    unfold anchors17 in Hi; rewrite length_map, length_seq in Hi; lia. }
  split; [exact H1|]; split; [exact H2|]; split; [exact H3|]; split; [exact H4|].
  split; [exact (Hord _ gt_far 15%nat 3%nat _ _ _ H1 H2 H3 H4)|].
  split; [exact H5|]; split; [exact H6|]; split; [exact H7|].
  exact (Hfg H5 H6 H7).
Defined.

(** ** C7: determinism of [Loss_op.loss] *)

(** C7 fails: two successive calls on the same object with the same ground
    truth and network tensors return different labels, since each call
    draws from the random state. *)
Lemma loss_labels_differ_between_calls :
  let call1 := loss lo17 rng_two [gt_far] score17 box17 in
  let call2 := loss (fst (snd call1)) (snd (snd call1)) [gt_far] score17 box17 in
  fst (snd call1) = lo17 /\ out_label (fst call1) <> out_label (fst call2).
Proof.
  cbv zeta; rewrite !loss_state; cbn [fst snd].
  split; [reflexivity|].
  rewrite !loss_label; vm_compute; discriminate.
Qed.

(** C7, amended: [Loss_op.loss] is a function of its inputs and of the draws
    it takes from the random state (one per batch element): with the same
    draws it returns the same result; it leaves the object as it is and
    advances the random state by the batch size. *)
Theorem loss_deterministic_given_draws self r r' gt pre_score pre_box :
  (forall k, (k < length gt)%nat -> draws r (drawn r + k) = draws r' (drawn r' + k)) ->
  fst (loss self r gt pre_score pre_box) = fst (loss self r' gt pre_score pre_box)
  /\ fst (snd (loss self r gt pre_score pre_box)) = self
  /\ snd (snd (loss self r gt pre_score pre_box)) = Rng (draws r) (drawn r + length gt).
Proof.
  intros Hd.
  assert (Hp : map (fun k => draws r (drawn r + k)) (seq 0 (length gt))
               = map (fun k => draws r' (drawn r' + k)) (seq 0 (length gt))).
  { apply map_ext_in; intros k Hk; apply in_seq in Hk; apply Hd; lia. }
  split; [|split].
  - unfold loss, pos_neg_anchor2; rewrite !draw_n_spec, Hp; reflexivity.
  - rewrite loss_state; reflexivity.
  - rewrite loss_state, draw_n_spec; reflexivity.
Qed.

Lemma loss_deterministic_given_draws_witness :
  (forall k, (k < length [gt_far])%nat -> draws rng_seq (drawn rng_seq + k)
                                         = draws rng_two (drawn rng_two + k))
  /\ fst (loss lo17 rng_seq [gt_far] score17 box17) = fst (loss lo17 rng_two [gt_far] score17 box17)
  /\ fst (snd (loss lo17 rng_seq [gt_far] score17 box17)) = lo17
  /\ snd (snd (loss lo17 rng_seq [gt_far] score17 box17))
     = Rng (draws rng_seq) (drawn rng_seq + length [gt_far]).
Proof.
  assert (H : forall k, (k < length [gt_far])%nat -> draws rng_seq (drawn rng_seq + k)
                                                   = draws rng_two (drawn rng_two + k)).
  { intros k Hk; simpl in Hk; assert (k = 0%nat) by lia; subst; reflexivity. }
  split; [exact H | apply (loss_deterministic_given_draws lo17 rng_seq rng_two); exact H].
Defined.

(** ** C8: the cached anchor set *)

Lemma run_losses_spec self r calls :
  fst (snd (run_losses self r calls)) = self
  /\ Forall2 (fun call o => exists r',
                o = fst (loss self r' (fst (fst call)) (snd (fst call)) (snd call)))
             calls (fst (run_losses self r calls)).
Proof.
  revert r; induction calls as [|[[gt pre_score] pre_box] calls IH]; intros r;
    [split; [reflexivity | constructor]|].
  simpl.
  pose proof (loss_state self r gt pre_score pre_box) as Hs.
  destruct (loss self r gt pre_score pre_box) as [o [self' r']] eqn:E.
  assert (Hself : self' = self) by (simpl in Hs; inversion Hs; reflexivity); subst self'.
  destruct (IH r') as [IH1 IH2].
  destruct (run_losses self r' calls) as [os st]; simpl in *.
  split; [exact IH1|].
  constructor; [exists r; simpl; rewrite E; reflexivity | exact IH2].
Qed.

(** C8: after any sequence of calls of [Loss_op.loss], the object built by
    [__init__] is unchanged, its anchors are still [Anchor(49,49).anchors],
    and every call computed its result from that object. *)
Theorem loss_keeps_cached_anchors Anchor r calls :
  fst (snd (run_losses (Loss_op_init Anchor) r calls)) = Loss_op_init Anchor
  /\ anchors (fst (snd (run_losses (Loss_op_init Anchor) r calls))) = Anchor 49%nat 49%nat
  /\ Forall2 (fun call o => exists r',
                o = fst (loss (Loss_op_init Anchor) r' (fst (fst call)) (snd (fst call)) (snd call)))
             calls (fst (run_losses (Loss_op_init Anchor) r calls)).
Proof.
  destruct (run_losses_spec (Loss_op_init Anchor) r calls) as [H1 H2].
  split; [exact H1|]; split; [rewrite H1; reflexivity | exact H2].
Qed.

(** ** C10: layer chaining *)

Module NetFacts.
Import Net.

Section Chaining.
Context {tensor : Type}.

Lemma dict_get_set_same (d : list (string * tensor)) k v : dict_get (dict_set d k v) k = Some v.
Proof.
  induction d as [|[k' v'] d IH]; simpl; [rewrite String.eqb_refl; reflexivity|].
  destruct (String.eqb k' k) eqn:E; simpl; rewrite E; [reflexivity | exact IH].
Qed.

Lemma dict_get_set_other (d : list (string * tensor)) k k2 v :
  k2 <> k -> dict_get (dict_set d k v) k2 = dict_get d k2.
Proof.
  intros Hne; induction d as [|[k' v'] d IH]; simpl.
  - destruct (String.eqb k k2) eqn:E; [apply String.eqb_eq in E; congruence | reflexivity].
  - destruct (String.eqb k' k) eqn:E; simpl.
    + apply String.eqb_eq in E; subst k'.
      destruct (String.eqb k k2) eqn:E2; [apply String.eqb_eq in E2; congruence | reflexivity].
    + destruct (String.eqb k' k2); [reflexivity | exact IH].
Qed.

(** C10: a decorated layer call with no terminals raises [RuntimeError] and
    leaves the object (its layer table included) as it is; otherwise, when
    the operation returns [out], the table maps the layer's name (the
    keyword or the generated one) to [out], keeps every other name, and the
    terminals are exactly [[out]], the single input of the next layer call.
    An operation that raises leaves the object as it is. *)
Theorem layer_decorated_chaining (op_name : string) (op : @layer_op tensor) (self : Network)
  (kw_name : option string) :
  (terminals self = [] ->
     exists msg, layer_decorated op_name op self kw_name = (inl (RuntimeError msg), self))
  /\ (forall out, terminals self <> [] ->
        op self (input_of (terminals self)) (layer_name op_name self kw_name) = inr out ->
        let '(res, self') := layer_decorated op_name op self kw_name in
        res = inr tt
        /\ dict_get (layers self') (layer_name op_name self kw_name) = Some out
        /\ (forall k, k <> layer_name op_name self kw_name ->
              dict_get (layers self') k = dict_get (layers self) k)
        /\ terminals self' = [out]
        /\ input_of (terminals self') = Single out)
  /\ (forall e, terminals self <> [] ->
        op self (input_of (terminals self)) (layer_name op_name self kw_name) = inl e ->
        layer_decorated op_name op self kw_name = (inl e, self)).
Proof.
  unfold layer_decorated.
  destruct (terminals self) as [|t ts] eqn:T.
  - split; [intros _; eexists; reflexivity|].
    split; intros ? H; congruence.
  - split; [discriminate|]; split.
    + intros out _ Hop; rewrite Hop; simpl.
      split; [reflexivity|]; split; [apply dict_get_set_same|]; split;
        [intros k Hk; apply dict_get_set_other; exact Hk|].
      split; reflexivity.
    + intros e _ Hop; rewrite Hop; reflexivity.
Qed.

End Chaining.

Lemma layer_decorated_chaining_witness :
  Net.terminals net0 <> []
  /\ op7 net0 (Net.input_of (Net.terminals net0)) (Net.layer_name "conv" net0 None) = inr 7%nat
  /\ (let '(res, self') := Net.layer_decorated "conv" op7 net0 None in
      res = inr tt
      /\ Net.dict_get (Net.layers self') (Net.layer_name "conv" net0 None) = Some 7%nat
      /\ (forall k, k <> Net.layer_name "conv" net0 None ->
            Net.dict_get (Net.layers self') k = Net.dict_get (Net.layers net0) k)
      /\ Net.terminals self' = [7%nat]
      /\ Net.input_of (Net.terminals self') = Net.Single 7%nat).
Proof.
  assert (H1 : Net.terminals net0 <> []) by discriminate.
  assert (H2 : op7 net0 (Net.input_of (Net.terminals net0)) (Net.layer_name "conv" net0 None)
               = inr 7%nat) by reflexivity.
  split; [exact H1|]; split; [exact H2|].
  exact (proj1 (proj2 (layer_decorated_chaining "conv" op7 net0 None)) 7%nat H1 H2).
Defined.

End NetFacts.

(** ** [feed], [get_output], [get_unique_name] and [load] *)

Module NetExtra.
Import Net.

Section Feeding.
Context {tensor : Type}.

Lemma feed_loop_ok (lay : list (string * tensor)) args ts acc :
  mapM (resolve lay) args = Some ts -> feed_loop lay args acc = (None, acc ++ ts).
Proof.
  revert ts acc; induction args as [|a args IH]; intros ts acc H.
  - simpl in H; inversion H; rewrite app_nil_r; reflexivity.
  - simpl in H; destruct (resolve lay a) as [t|] eqn:Ea; simpl in H; [|discriminate].
    destruct (mapM (resolve lay) args) as [ts'|] eqn:Er; simpl in H; [|discriminate].
    inversion H; subst ts.
    destruct a as [s|t']; simpl in Ea |- *.
    + rewrite Ea, (IH ts' _ eq_refl), <- app_assoc; reflexivity.
    + inversion Ea; subst t'; rewrite (IH ts' _ eq_refl), <- app_assoc; reflexivity.
Qed.

Lemma feed_loop_unknown (lay : list (string * tensor)) pre s post ts acc :
  mapM (resolve lay) pre = Some ts -> dict_get lay s = None ->
  feed_loop lay (pre ++ FedName s :: post) acc
  = (Some (KeyError ("Unknown layer name fed: " ++ s)), acc ++ ts).
Proof.
  intros Hpre Hs; revert ts acc Hpre; induction pre as [|a pre IH]; intros ts acc Hpre.
  - simpl in Hpre; inversion Hpre; simpl; rewrite Hs, app_nil_r; reflexivity.
  - simpl in Hpre; destruct (resolve lay a) as [t|] eqn:Ea; simpl in Hpre; [|discriminate].
    destruct (mapM (resolve lay) pre) as [ts'|] eqn:Er; simpl in Hpre; [|discriminate].
    inversion Hpre; subst ts.
    destruct a as [s'|t']; simpl in Ea |- *.
    + rewrite Ea, (IH ts' _ eq_refl), <- app_assoc; reflexivity.
    + inversion Ea; subst t'; rewrite (IH ts' _ eq_refl), <- app_assoc; reflexivity.
Qed.

Lemma feed_layers (self : @Network tensor) args : layers (snd (feed self args)) = layers self.
Proof.
  unfold feed; destruct args as [|a args]; [reflexivity|].
  destruct (feed_loop (layers self) (a :: args) []) as [[e|] terms]; reflexivity.
Qed.

(** [feed] with no argument fails its assertion and changes nothing. It
    never changes the layer table. When every argument is a layer or a
    known layer name, the terminals become the fed layers in argument order
    (the previous terminals are dropped), and [get_output] then returns the
    layer of the last argument. *)
Theorem feed_resolves (self : @Network tensor) (args : list fed) :
  (args = [] -> feed self args = (inl AssertionError, self))
  /\ layers (snd (feed self args)) = layers self
  /\ (forall pre a ts, args = pre ++ [a] -> mapM (resolve (layers self)) args = Some ts ->
        feed self args = (inr tt, {| terminals := ts; layers := layers self |})
        /\ get_output (snd (feed self args)) = resolve (layers self) a).
Proof.
  split; [intros ->; reflexivity|].
  split; [apply feed_layers|].
  intros pre a ts -> H.
  assert (Hf : feed self (pre ++ [a]) = (inr tt, {| terminals := ts; layers := layers self |})).
  { unfold feed; destruct pre as [|b pre]; simpl app in H |- *;
      rewrite (feed_loop_ok _ _ ts [] H); reflexivity. }
  split; [exact Hf|]; rewrite Hf; unfold get_output; simpl.
  rewrite mapM_app in H.
  destruct (mapM (resolve (layers self)) pre) as [ts1|]; simpl in H; [|discriminate].
  simpl in H; destruct (resolve (layers self) a) as [t|]; simpl in H; [|discriminate].
  inversion H; rewrite rev_app_distr; reflexivity.
Qed.

(** [feed] stops at the first unknown layer name [s] with
    [KeyError("Unknown layer name fed: s")]; the object keeps its layer
    table, and its terminals are left holding the layers fed before [s]:
    the previous terminals are lost. *)
Theorem feed_unknown_name_partial (self : @Network tensor) pre s post ts :
  mapM (resolve (layers self)) pre = Some ts -> dict_get (layers self) s = None ->
  feed self (pre ++ FedName s :: post)
  = (inl (KeyError ("Unknown layer name fed: " ++ s)),
     {| terminals := ts; layers := layers self |}).
Proof.
  intros Hpre Hs; unfold feed.
  destruct (pre ++ FedName s :: post) as [|a args] eqn:E; [destruct pre; discriminate|].
  rewrite <- E, (feed_loop_unknown _ pre s post ts [] Hpre Hs); reflexivity.
Qed.

End Feeding.

Local Open Scope nat_scope.

Lemma read_decimal_digits fuel n acc v :
  n < fuel -> exists k, read_decimal (digits_aux fuel n acc) v = read_decimal acc (v * 10 ^ k + n).
Proof.
  revert n acc v; induction fuel as [|fuel IH]; intros n acc v Hn; [lia|].
  cbn [digits_aux].
  assert (Hd : forall w, read_decimal (String (ascii_of_nat (48 + n mod 10)) acc) w
                       = read_decimal acc (10 * w + n mod 10)).
  { intros w; cbn [read_decimal]; rewrite Ascii.nat_ascii_embedding.
    - f_equal; lia.
    - pose proof (Nat.mod_upper_bound n 10); lia. }
  destruct (Nat.ltb n 10) eqn:Hlt.
  - apply Nat.ltb_lt in Hlt; exists 1; rewrite Hd, (Nat.mod_small n 10 Hlt); f_equal.
    rewrite Nat.pow_1_r; lia.
  - apply Nat.ltb_ge in Hlt.
    assert (Hq : n / 10 < fuel).
    { pose proof (Nat.div_lt n 10); lia. }
    destruct (IH (n / 10) (String (ascii_of_nat (48 + n mod 10)) acc) v Hq) as [k Hk].
    exists (S k); rewrite Hk, Hd; f_equal.
    pose proof (Nat.div_mod_eq n 10) as Hdm; rewrite Nat.pow_succ_r'.
    replace (v * (10 * 10 ^ k)) with (10 * (v * 10 ^ k)) by ring.
    remember (v * 10 ^ k) as m; lia.
Qed.

Lemma read_string_of_nat n : read_decimal (string_of_nat n) 0 = n.
Proof.
  unfold string_of_nat; destruct (read_decimal_digits (S n) n EmptyString 0) as [k Hk]; [lia|].
  rewrite Hk; reflexivity.
Qed.

Lemma append_cancel_l (p s t : string) : (p ++ s = p ++ t)%string -> s = t.
Proof. induction p as [|c p IH]; simpl; [auto | intros H; injection H; exact IH]. Qed.

Lemma auto_name_inj p i j : auto_name p i = auto_name p j -> i = j.
Proof.
  unfold auto_name; intros H; apply append_cancel_l in H; simpl in H; injection H; intros H'.
  rewrite <- (read_string_of_nat i), <- (read_string_of_nat j), H'; reflexivity.
Qed.

Lemma prefix_app (p s : string) : String.prefix p (p ++ s)%string = true.
Proof.
  induction p as [|c p IH]; simpl; [destruct s; reflexivity|].
  destruct (Ascii.ascii_dec c c) as [_|n]; [exact IH | congruence].
Qed.

Lemma auto_name_prefix p k : String.prefix p (auto_name p k) = true.
Proof. apply prefix_app. Qed.

Lemma NoDup_map_filter {A B} (f : A -> B) (P : A -> bool) l :
  NoDup (map f l) -> NoDup (map f (filter P l)).
Proof.
  induction l as [|a l IH]; simpl; [auto|]; intros H; inversion H as [|? ? Hn Hd]; subst.
  destruct (P a); simpl; [|apply IH; exact Hd].
  constructor; [|apply IH; exact Hd].
  intros Hin; apply Hn; apply in_map_iff in Hin; destruct Hin as [x [Hx Hi]].
  apply filter_In in Hi; apply in_map_iff; exists x; tauto.
Qed.

Lemma NoDup_map_inj {A B} (f : A -> B) l :
  (forall x y, f x = f y -> x = y) -> NoDup l -> NoDup (map f l).
Proof.
  intros Hf; induction 1 as [|a l Ha Hd IH]; simpl; constructor; [|exact IH].
  intros Hin; apply in_map_iff in Hin; destruct Hin as [x [Hx Hi]].
  apply Hf in Hx; subst; contradiction.
Qed.

Lemma NoDup_snoc {A} (l : list A) x : NoDup l -> ~ In x l -> NoDup (l ++ [x]).
Proof.
  induction l as [|a l IH]; simpl; intros Hd Hn; [constructor; [auto | constructor]|].
  inversion Hd as [|? ? Ha Hd']; subst; constructor.
  - rewrite in_app_iff; simpl; intuition.
  - apply IH; auto.
Qed.

Section Naming.
Context {tensor : Type}.

Lemma auto_named_count p (lay : list (string * tensor)) n :
  auto_named p lay n -> length (filter (fun kv => String.prefix p (fst kv)) lay) = n.
Proof.
  intros [Hnd Hiff].
  set (F := map fst (filter (fun kv => String.prefix p (fst kv)) lay)).
  set (G := map (auto_name p) (seq 1 n)).
  assert (HF : NoDup F) by (apply NoDup_map_filter; exact Hnd).
  assert (HG : NoDup G) by (apply NoDup_map_inj; [apply auto_name_inj | apply seq_NoDup]).
  assert (H1 : incl F G).
  { intros k Hk; unfold F in Hk; apply in_map_iff in Hk; destruct Hk as [kv [<- Hkv]].
    apply filter_In in Hkv; destruct Hkv as [Hin Hp].
    destruct (proj1 (Hiff (fst kv)) (conj (in_map fst _ _ Hin) Hp)) as [j [Hj ->]].
    unfold G; apply in_map; apply in_seq; lia. }
  assert (H2 : incl G F).
  { intros k Hk; unfold G in Hk; apply in_map_iff in Hk; destruct Hk as [j [<- Hj]].
    apply in_seq in Hj.
    assert (Hj' : 1 <= j <= n) by lia.
    destruct (proj2 (Hiff (auto_name p j)) (ex_intro _ j (conj Hj' eq_refl))) as [Hin Hp].
    apply in_map_iff in Hin; destruct Hin as [kv [Hk Hkv]].
    unfold F; apply in_map_iff; exists kv; split; [exact Hk|].
    apply filter_In; rewrite Hk; auto. }
  pose proof (NoDup_incl_length HF H1) as L1; pose proof (NoDup_incl_length HG H2) as L2.
  unfold F, G in *; rewrite length_map in L1, L2; rewrite length_map, length_seq in L1, L2.
  lia.
Qed.

Lemma dict_set_absent (d : list (string * tensor)) k v :
  ~ In k (map fst d) -> dict_set d k v = d ++ [(k, v)].
Proof.
  induction d as [|[k' v'] d IH]; simpl; intros Hn; [reflexivity|].
  destruct (String.eqb k' k) eqn:E; [apply String.eqb_eq in E; tauto|].
  rewrite IH by tauto; reflexivity.
Qed.

(** The automatic layer names stay fresh. If the names of the table that
    start with [prefix] are exactly [prefix_1], ..., [prefix_n] (each once),
    then [get_unique_name] returns [prefix_(n+1)], which is not yet a name
    of the table; a successful layer call of the operation [prefix] without
    an explicit name appends its output under that name, overwriting no
    layer, and the table then has [prefix_1], ..., [prefix_(n+1)]. *)
Theorem auto_naming_fresh (prefix : string) (op : @layer_op tensor) (self : Network) n out :
  auto_named prefix (layers self) n -> terminals self <> [] ->
  op self (input_of (terminals self)) (auto_name prefix (S n)) = inr out ->
  get_unique_name self prefix = auto_name prefix (S n)
  /\ ~ In (auto_name prefix (S n)) (map fst (layers self))
  /\ (let '(res, self') := layer_decorated prefix op self None in
      res = inr tt
      /\ layers self' = layers self ++ [(auto_name prefix (S n), out)]
      /\ auto_named prefix (layers self') (S n)).
Proof.
  intros Hn Ht Hop.
  assert (Hname : get_unique_name self prefix = auto_name prefix (S n)).
  { unfold get_unique_name, auto_name; rewrite (auto_named_count _ _ _ Hn), Nat.add_1_r.
    reflexivity. }
  assert (Hfresh : ~ In (auto_name prefix (S n)) (map fst (layers self))).
  { intros Hin; destruct (proj1 (proj2 Hn _) (conj Hin (auto_name_prefix _ _))) as [j [Hj E]].
    apply auto_name_inj in E; lia. }
  split; [exact Hname|]; split; [exact Hfresh|].
  unfold layer_decorated, layer_name; rewrite Hname.
  destruct (terminals self) as [|t ts] eqn:T; [congruence|].
  rewrite Hop; simpl.
  rewrite (dict_set_absent _ _ _ Hfresh).
  split; [reflexivity|]; split; [reflexivity|].
  destruct Hn as [Hnd Hiff]; split.
  - rewrite map_app; simpl; apply NoDup_snoc; assumption.
  - intros k; rewrite map_app, in_app_iff; simpl; split.
    + intros [[Hin | [<- | []]] Hp].
      * destruct (proj1 (Hiff k) (conj Hin Hp)) as [j [Hj ->]]; exists j; split; [lia | reflexivity].
      * exists (S n); split; [lia | reflexivity].
    + intros [j [Hj ->]].
      split; [|apply auto_name_prefix].
      destruct (Nat.eq_dec j (S n)) as [->|Hne]; [right; left; reflexivity|].
      left; apply (proj2 (Hiff _)); exists j; split; [lia | reflexivity].
Qed.

End Naming.

Section Loading.
Context {array : Type}.
Variable var_shape : string -> string -> option (list nat).
Variable shape_of : array -> list nat.










End Loading.

End NetExtra.

(** ** Further properties of the two losses *)

Lemma sum_list_app l1 l2 : sum_list (l1 ++ l2) = sum_list l1 + sum_list l2.
Proof. induction l1 as [|x l1 IH]; simpl; [ring | rewrite IH; ring]. Qed.

Lemma sum_list_nonneg l : Forall (fun x => 0 <= x) l -> 0 <= sum_list l.
Proof. induction 1; simpl; lra. Qed.

Lemma map4_nonneg {A B C D} (P : D -> Prop) (f : A -> B -> C -> D -> R) l1 l2 l3 l4 :
  (forall a b c d, P d -> 0 <= f a b c d) -> Forall P l4 ->
  0 <= sum_list (map4 f l1 l2 l3 l4).
Proof.
  intros Hf HF; revert l1 l2 l3; induction HF as [|d l4' Hd HF IH];
    intros [|a l1'] [|b l2'] [|c l3']; simpl; try lra.
  pose proof (Hf a b c d Hd); pose proof (IH l1' l2' l3'); lra.
Qed.

Lemma map4_swap12 {A B C D E} (f : A -> B -> C -> D -> E) l1 l2 l3 l4 :
  map4 f l1 l2 l3 l4 = map4 (fun b a c d => f a b c d) l2 l1 l3 l4.
Proof.
  revert l2 l3 l4; induction l1 as [|a l1 IH]; intros [|b l2] [|c l3] [|d l4]; simpl;
    try reflexivity.
  rewrite IH; reflexivity.
Qed.

Lemma map4_app {A B C D E} (f : A -> B -> C -> D -> E) l1 l2 l3 l4 m1 m2 m3 m4 :
  length l2 = length l1 -> length l3 = length l1 -> length l4 = length l1 ->
  map4 f (l1 ++ m1) (l2 ++ m2) (l3 ++ m3) (l4 ++ m4) = map4 f l1 l2 l3 l4 ++ map4 f m1 m2 m3 m4.
Proof.
  revert l2 l3 l4; induction l1 as [|a l1 IH]; intros [|b l2] [|c l3] [|d l4]; simpl;
    try discriminate; intros; [reflexivity|].
  rewrite IH by lia; reflexivity.
Qed.

Lemma smooth_l1_spec_nonneg x : 0 <= smooth_l1_spec x.
Proof. unfold smooth_l1_spec; destruct (Rlt_dec (Rabs x) 1); nra. Qed.

Lemma smooth_l1_spec_opp x : smooth_l1_spec (- x) = smooth_l1_spec x.
Proof. unfold smooth_l1_spec; rewrite Rabs_Ropp; destruct (Rlt_dec (Rabs x) 1); ring. Qed.

Lemma anchor_reg_spec_nonneg p t i o :
  0 <= e0 o /\ 0 <= e1 o /\ 0 <= e2 o /\ 0 <= e3 o -> 0 <= anchor_reg_spec p t i o.
Proof.
  intros [H0 [H1 [H2 H3]]]; unfold anchor_reg_spec.
  pose proof (smooth_l1_spec_nonneg (e0 i * (e0 p - e0 t))).
  pose proof (smooth_l1_spec_nonneg (e1 i * (e1 p - e1 t))).
  pose proof (smooth_l1_spec_nonneg (e2 i * (e2 p - e2 t))).
  pose proof (smooth_l1_spec_nonneg (e3 i * (e3 p - e3 t))).
  nra.
Qed.

(** The regression loss of lines 27-34 is non-negative whenever every
    outside weight is. *)
Theorem reg_loss_nonneg pb tb iw ow :
  Forall (Forall (fun o => 0 <= e0 o /\ 0 <= e1 o /\ 0 <= e2 o /\ 0 <= e3 o)) ow ->
  0 <= reg_loss_of pb tb iw ow.
Proof.
  intros HF; rewrite reg_loss_of_spec; unfold reg_loss_spec.
  cut (0 <= sum_list (map4 (fun p t i o => sum_list (map4 anchor_reg_spec p t i o)) pb tb iw ow));
    [lra|].
  apply (map4_nonneg _ _ _ _ _ _ (fun p t i o Ho => map4_nonneg _ _ p t i o
           (fun a b c d Hd => anchor_reg_spec_nonneg a b c d Hd) Ho) HF).
Qed.

(** The elementwise transform of line 33 (before the outside weight) lies
    between 0 and [|x|], and is 1-Lipschitz: a change of the residual by
    [h] changes it by at most [|h|]. *)
Theorem smooth_l1_robust x y :
  0 <= blend x <= Rabs x /\ Rabs (blend x - blend y) <= Rabs (x - y).
Proof.
  rewrite !blend_spec; unfold smooth_l1_spec.
  destruct (Rlt_dec (Rabs x) 1) as [Hx|Hx]; destruct (Rlt_dec (Rabs y) 1) as [Hy|Hy];
    revert Hx Hy; unfold Rabs;
    destruct (Rcase_abs x); destruct (Rcase_abs y); destruct (Rcase_abs (x - y));
    intros Hx Hy; split; try split;
    try (destruct (Rcase_abs _); nra); nra.
Qed.

(** The regression loss is symmetric in the predicted and the target
    boxes: swapping them leaves it unchanged. *)
Theorem reg_loss_swap_boxes pb tb iw ow : reg_loss_of pb tb iw ow = reg_loss_of tb pb iw ow.
Proof.
  rewrite !reg_loss_of_spec; unfold reg_loss_spec; f_equal; f_equal.
  rewrite map4_swap12; apply map4_ext; intros p t i o.
  rewrite map4_swap12; f_equal; apply map4_ext; intros a b c d.
  unfold anchor_reg_spec.
  replace (e0 c * (e0 a - e0 b)) with (- (e0 c * (e0 b - e0 a))) by ring.
  replace (e1 c * (e1 a - e1 b)) with (- (e1 c * (e1 b - e1 a))) by ring.
  replace (e2 c * (e2 a - e2 b)) with (- (e2 c * (e2 b - e2 a))) by ring.
  replace (e3 c * (e3 a - e3 b)) with (- (e3 c * (e3 b - e3 a))) by ring.
  rewrite !smooth_l1_spec_opp; reflexivity.
Qed.

(** The regression loss of a batch is the sum of the regression losses of
    its parts (no averaging over the batch): for two batches whose four
    tensors have matching batch sizes, the loss of their concatenation is
    the sum of their losses. *)
Theorem reg_loss_batch_sum pb1 tb1 iw1 ow1 pb2 tb2 iw2 ow2 :
  length tb1 = length pb1 -> length iw1 = length pb1 -> length ow1 = length pb1 ->
  reg_loss_of (pb1 ++ pb2) (tb1 ++ tb2) (iw1 ++ iw2) (ow1 ++ ow2)
  = reg_loss_of pb1 tb1 iw1 ow1 + reg_loss_of pb2 tb2 iw2 ow2.
Proof.
  intros H1 H2 H3; rewrite !reg_loss_of_spec; unfold reg_loss_spec.
  rewrite map4_app, sum_list_app by assumption; ring.
Qed.

Lemma softmax_xent_nonneg s l : 0 <= softmax_xent s l.
Proof.
  unfold softmax_xent; destruct s as [a b]; simpl.
  pose proof (exp_pos a); pose proof (exp_pos b).
  assert (Ha : ln (exp a) < ln (exp a + exp b)) by (apply ln_increasing; lra).
  assert (Hb : ln (exp b) < ln (exp a + exp b)) by (apply ln_increasing; lra).
  rewrite ln_exp in Ha, Hb; destruct (Z.eqb l 1); lra.
Qed.

Lemma mapM_length {A B} (f : A -> option B) l l' : mapM f l = Some l' -> length l' = length l.
Proof.
  revert l'; induction l as [|a l IH]; intros l' H; simpl in H.
  - inversion H; reflexivity.
  - destruct (f a); simpl in H; [|discriminate].
    destruct (mapM f l) as [bs|] eqn:E; simpl in H; [|discriminate].
    inversion H; simpl; rewrite (IH bs eq_refl); reflexivity.
Qed.

Lemma map2M_xent l1 l2 xs :
  map2M sparse_softmax_cross_entropy_with_logits l1 l2 = Some xs ->
  length xs = length l1 /\ Forall (fun x => 0 <= x) xs.
Proof.
  revert l2 xs; induction l1 as [|s l1 IH]; intros [|l l2] xs H; simpl in H; try discriminate.
  - inversion H; split; [reflexivity | constructor].
  - destruct (sparse_softmax_cross_entropy_with_logits s l) as [x|] eqn:Ex; simpl in H;
      [|discriminate].
    destruct (map2M sparse_softmax_cross_entropy_with_logits l1 l2) as [xs'|] eqn:E;
      simpl in H; [|discriminate].
    inversion H; subst xs; destruct (IH l2 xs' E) as [Hl HF].
    split; [simpl; rewrite Hl; reflexivity|].
    constructor; [|exact HF].
    unfold sparse_softmax_cross_entropy_with_logits in Ex.
    destruct ((0 <=? l)%Z && (l <? 2)%Z); inversion Ex; apply softmax_xent_nonneg.
Qed.

(** Whenever the classification loss is computed without a runtime error
    and some anchor is not ignored, it is non-negative. *)
Theorem cls_loss_nonneg label pre_score v :
  cls_loss_of label pre_score = Some v -> where_not_equal label (-1) <> [] -> 0 <= v.
Proof.
  unfold cls_loss_of; intros H Hne.
  destruct (gather_nd pre_score (where_not_equal label (-1))) as [ps|] eqn:G1;
    simpl in H; [|discriminate].
  destruct (gather_nd label (where_not_equal label (-1))) as [ls|] eqn:G2;
    simpl in H; [|discriminate].
  destruct (map2M sparse_softmax_cross_entropy_with_logits ps ls) as [xs|] eqn:G3;
    simpl in H; [|discriminate].
  inversion H; subst v.
  destruct (map2M_xent _ _ _ G3) as [Hl HF].
  apply mapM_length in G1.
  unfold reduce_mean, Rdiv; apply Rmult_le_pos; [apply sum_list_nonneg; exact HF|].
  left; apply Rinv_0_lt_compat, lt_0_INR.
  rewrite Hl, G1; destruct (where_not_equal label (-1)); [congruence | simpl; lia].
Qed.

Lemma where_row_in v b i0 row b' i' :
  In (b', i') (where_row v b i0 row) ->
  b' = b /\ (i0 <= i')%nat /\ exists l, nth_error row (i' - i0) = Some l /\ l <> v.
Proof.
  revert i0; induction row as [|l row IH]; intros i0 Hin; simpl in Hin; [contradiction|].
  destruct (Z.eqb l v) eqn:E.
  - destruct (IH (S i0) Hin) as [Hb [Hi [l' [Hl' Hne]]]].
    split; [exact Hb|]; split; [lia|]; exists l'; split; [|exact Hne].
    replace (i' - i0)%nat with (S (i' - S i0)) by lia; exact Hl'.
  - destruct Hin as [Heq | Hin].
    + inversion Heq; subst; split; [reflexivity|]; split; [lia|].
      exists l; rewrite Nat.sub_diag; split; [reflexivity | apply Z.eqb_neq; exact E].
    + destruct (IH (S i0) Hin) as [Hb [Hi [l' [Hl' Hne]]]].
      split; [exact Hb|]; split; [lia|]; exists l'; split; [|exact Hne].
      replace (i' - i0)%nat with (S (i' - S i0)) by lia; exact Hl'.
Qed.

Lemma where_rows_in v b0 rows b' i' :
  In (b', i') (where_rows v b0 rows) ->
  (b0 <= b')%nat /\ exists lr, nth_error rows (b' - b0) = Some lr
                    /\ exists l, nth_error lr i' = Some l /\ l <> v.
Proof.
  revert b0; induction rows as [|lr rows IH]; intros b0 Hin; simpl in Hin; [contradiction|].
  apply in_app_or in Hin; destruct Hin as [Hin | Hin].
  - destruct (where_row_in v b0 0 lr b' i' Hin) as [-> [_ [l [Hl Hne]]]].
    split; [lia|]; exists lr; rewrite Nat.sub_diag, Nat.sub_0_r in *; split; [reflexivity|].
    exists l; split; assumption.
  - destruct (IH (S b0) Hin) as [Hb [lr' [Hlr Hl]]].
    split; [lia|]; exists lr'; split; [|exact Hl].
    replace (b' - b0)%nat with (S (b' - S b0)) by lia; exact Hlr.
Qed.

Lemma nth_error_update_nth {A} (f : A -> A) l b b' :
  nth_error (update_nth b f l) b'
  = if Nat.eqb b' b then option_map f (nth_error l b) else nth_error l b'.
Proof.
  revert b b'; induction l as [|x l IH]; intros b b'.
  - destruct b; destruct b'; simpl; try destruct (Nat.eqb _ _); reflexivity.
  - destruct b as [|b]; destruct b' as [|b']; simpl; try reflexivity; apply IH.
Qed.

Lemma mapM_ext_in {A B} (f g : A -> option B) l :
  (forall x, In x l -> f x = g x) -> mapM f l = mapM g l.
Proof.
  induction l as [|a l IH]; intros H; simpl; [reflexivity|].
  rewrite (H a (or_introl eq_refl)), IH by (intros x Hx; apply H; right; exact Hx).
  reflexivity.
Qed.

(** The score of an ignored anchor (label -1) does not reach the
    classification loss: replacing it by any other score pair leaves the
    result unchanged, runtime errors included. *)
Theorem cls_loss_ignores_ignored label pre_score b i lr s :
  nth_error label b = Some lr -> nth_error lr i = Some (-1)%Z ->
  cls_loss_of label (update_nth b (update_nth i (fun _ => s)) pre_score)
  = cls_loss_of label pre_score.
Proof.
  intros Hb Hi; unfold cls_loss_of.
  assert (G : gather_nd (update_nth b (update_nth i (fun _ => s)) pre_score)
                (where_not_equal label (-1))
              = gather_nd pre_score (where_not_equal label (-1))).
  { unfold gather_nd; apply mapM_ext_in; intros [b' i'] Hin; simpl.
    unfold where_not_equal in Hin; apply where_rows_in in Hin.
    destruct Hin as [_ [lr' [Hlr' [l [Hl Hne]]]]]; rewrite Nat.sub_0_r in Hlr'.
    rewrite nth_error_update_nth; destruct (Nat.eqb b' b) eqn:Eb; [|reflexivity].
    apply Nat.eqb_eq in Eb; subst b'.
    destruct (nth_error pre_score b) as [row|]; simpl; [|reflexivity].
    rewrite nth_error_update_nth; destruct (Nat.eqb i' i) eqn:Ei; [|reflexivity].
    apply Nat.eqb_eq in Ei; subst i'; rewrite Hb in Hlr'; inversion Hlr'; subst lr'.
    rewrite Hi in Hl; inversion Hl; subst l; contradiction. }
  rewrite G; reflexivity.
Qed.

Lemma softmax_xent_equal s l : fst s = snd s -> softmax_xent s l = ln 2.
Proof.
  destruct s as [a c]; simpl; intros ->; unfold softmax_xent; simpl.
  replace (exp c + exp c) with (2 * exp c) by ring.
  rewrite ln_mult, ln_exp by (pose proof (exp_pos c); lra).
  destruct (Z.eqb l 1); ring.
Qed.

Lemma valid_xent_equal label pre_score :
  Forall2 (fun l s => length l = length s) label pre_score ->
  Forall (Forall (fun s => fst s = snd s)) pre_score ->
  valid_xent_sum label pre_score = INR (valid_count label) * ln 2.
Proof.
  unfold valid_xent_sum, valid_count.
  induction 1 as [|lr sr rows trows Hlen HF IH]; intros Hs; simpl; [ring|].
  inversion Hs as [|? ? Hsr Hs']; subst.
  rewrite IH by exact Hs'; rewrite plus_INR.
  assert (Hrow : sum_list (map2 (fun l s => if Z.eqb l (-1) then 0 else softmax_xent s l) lr sr)
                 = INR (length (filter (fun l => negb (Z.eqb l (-1))) lr)) * ln 2).
  { clear -Hlen Hsr; revert sr Hlen Hsr; induction lr as [|l lr IH]; intros [|s sr] Hlen Hsr;
      simpl in *; try discriminate; [ring|].
    inversion Hsr as [|? ? Hs1 Hsr']; subst.
    destruct (Z.eqb l (-1)); cbn -[INR]; rewrite (IH sr) by (lia || exact Hsr'); [ring|].
    rewrite S_INR, softmax_xent_equal by exact Hs1; ring. }
  rewrite Hrow; ring.
Qed.

Lemma valid_count_pos label :
  Exists (Exists (fun l => l <> (-1)%Z)) label -> (0 < valid_count label)%nat.
Proof.
  unfold valid_count; induction 1 as [lr rows Hlr | lr rows _ IH]; simpl; [|lia].
  cut (0 < length (filter (fun l => negb (Z.eqb l (-1))) lr))%nat; [lia|].
  induction Hlr as [l lr Hl | l lr _ IH]; simpl.
  - apply Z.eqb_neq in Hl; rewrite Hl; simpl; lia.
  - destruct (Z.eqb l (-1)); simpl; lia.
Qed.

(** With equal logits for every anchor (an uninformative prediction), the
    classification loss is [ln 2] whatever the labels, as long as some
    anchor is not ignored. *)
Theorem cls_loss_equal_logits label pre_score :
  Forall2 (fun l s => length l = length s) label pre_score -> label_range label ->
  Exists (Exists (fun l => l <> (-1)%Z)) label ->
  Forall (Forall (fun s => fst s = snd s)) pre_score ->
  cls_loss_of label pre_score = Some (ln 2).
Proof.
  intros HF Hr Hex Hs; rewrite cls_loss_of_spec by assumption; unfold cls_loss_spec.
  rewrite valid_xent_equal by assumption.
  pose proof (valid_count_pos label Hex) as Hp.
  f_equal; field; apply not_0_INR; lia.
Qed.

(** ** Instances of the properties on concrete inputs *)

Lemma reg_loss_nonneg_witness :
  Forall (Forall (fun o => 0 <= e0 o /\ 0 <= e1 o /\ 0 <= e2 o /\ 0 <= e3 o)) ow_ex
  /\ 0 <= reg_loss_of pb_ex tb_ex iw_ex ow_ex.
Proof.
  assert (H : Forall (Forall (fun o => 0 <= e0 o /\ 0 <= e1 o /\ 0 <= e2 o /\ 0 <= e3 o)) ow_ex).
  { unfold ow_ex; repeat constructor; simpl; lra. }
  split; [exact H | exact (reg_loss_nonneg pb_ex tb_ex iw_ex ow_ex H)].
Defined.

Lemma reg_loss_batch_sum_witness :
  length tb_ex = length pb_ex /\ length iw0_ex = length pb_ex /\ length ow_ex = length pb_ex
  /\ reg_loss_of (pb_ex ++ tb_ex) (tb_ex ++ pb_ex) (iw0_ex ++ iw_ex) (ow_ex ++ ow_ex)
     = reg_loss_of pb_ex tb_ex iw0_ex ow_ex + reg_loss_of tb_ex pb_ex iw_ex ow_ex.
Proof.
  assert (H1 : length tb_ex = length pb_ex) by reflexivity.
  assert (H2 : length iw0_ex = length pb_ex) by reflexivity.
  assert (H3 : length ow_ex = length pb_ex) by reflexivity.
  split; [exact H1|]; split; [exact H2|]; split; [exact H3|].
  exact (reg_loss_batch_sum pb_ex tb_ex iw0_ex ow_ex tb_ex pb_ex iw_ex ow_ex H1 H2 H3).
Defined.

Lemma cls_loss_nonneg_witness :
  cls_loss_of label_ex score_ex = Some (reduce_mean [softmax_xent (0, 0) 1%Z])
  /\ where_not_equal label_ex (-1) <> []
  /\ 0 <= reduce_mean [softmax_xent (0, 0) 1%Z].
Proof.
  assert (H1 : cls_loss_of label_ex score_ex = Some (reduce_mean [softmax_xent (0, 0) 1%Z]))
    by reflexivity.
  assert (H2 : where_not_equal label_ex (-1) <> []) by (compute; discriminate).
  split; [exact H1|]; split; [exact H2|].
  exact (cls_loss_nonneg label_ex score_ex _ H1 H2).
Defined.

Lemma cls_loss_ignores_ignored_witness :
  nth_error label_ex 0 = Some [1%Z; (-1)%Z] /\ nth_error [1%Z; (-1)%Z] 1 = Some (-1)%Z
  /\ cls_loss_of label_ex (update_nth 0 (update_nth 1 (fun _ => (5, 5))) score_ex)
     = cls_loss_of label_ex score_ex.
Proof.
  assert (H1 : nth_error label_ex 0 = Some [1%Z; (-1)%Z]) by reflexivity.
  assert (H2 : nth_error [1%Z; (-1)%Z] 1 = Some (-1)%Z) by reflexivity.
  split; [exact H1|]; split; [exact H2|].
  exact (cls_loss_ignores_ignored label_ex score_ex 0 1 _ (5, 5) H1 H2).
Defined.

Lemma cls_loss_equal_logits_witness :
  Forall2 (fun l s => length l = length s) label_ex score_eq_ex /\ label_range label_ex
  /\ Exists (Exists (fun l => l <> (-1)%Z)) label_ex
  /\ Forall (Forall (fun s => fst s = snd s)) score_eq_ex
  /\ cls_loss_of label_ex score_eq_ex = Some (ln 2).
Proof.
  assert (H1 : Forall2 (fun l s => length l = length s) label_ex score_eq_ex)
    by (repeat constructor).
  assert (H2 : label_range label_ex) by (repeat constructor; lia).
  assert (H3 : Exists (Exists (fun l => l <> (-1)%Z)) label_ex)
    by (apply Exists_cons_hd, Exists_cons_hd; discriminate).
  assert (H4 : Forall (Forall (fun s => fst s = snd s)) score_eq_ex) by (repeat constructor).
  split; [exact H1|]; split; [exact H2|]; split; [exact H3|]; split; [exact H4|].
  exact (cls_loss_equal_logits label_ex score_eq_ex H1 H2 H3 H4).
Defined.

Lemma feed_resolves_witness :
  mapM (Net.resolve (Net.layers net_two)) [Net.FedName "label"%string; Net.FedLayer 7%nat]
  = Some [5%nat; 7%nat]
  /\ Net.feed net_two [Net.FedName "label"%string; Net.FedLayer 7%nat]
     = (inr tt, {| Net.terminals := [5%nat; 7%nat]; Net.layers := Net.layers net_two |})
  /\ Net.get_output (snd (Net.feed net_two [Net.FedName "label"%string; Net.FedLayer 7%nat]))
     = Some 7%nat.
Proof.
  assert (H : mapM (Net.resolve (Net.layers net_two))
                [Net.FedName "label"%string; Net.FedLayer 7%nat] = Some [5%nat; 7%nat])
    by reflexivity.
  split; [exact H|].
  exact (proj2 (proj2 (NetExtra.feed_resolves net_two
                         [Net.FedName "label"%string; Net.FedLayer 7%nat]))
           [Net.FedName "label"%string] (Net.FedLayer 7%nat) [5%nat; 7%nat] eq_refl H).
Defined.

Lemma feed_unknown_name_partial_witness :
  mapM (Net.resolve (Net.layers net_data)) [Net.FedName "data"%string] = Some [4%nat]
  /\ Net.dict_get (Net.layers net_data) "conv9"%string = None
  /\ Net.feed net_data [Net.FedName "data"%string; Net.FedName "conv9"%string]
     = (inl (Net.KeyError ("Unknown layer name fed: " ++ "conv9")%string),
        {| Net.terminals := [4%nat]; Net.layers := Net.layers net_data |}).
Proof.
  assert (H1 : mapM (Net.resolve (Net.layers net_data)) [Net.FedName "data"%string]
               = Some [4%nat]) by reflexivity.
  assert (H2 : Net.dict_get (Net.layers net_data) "conv9"%string = None) by reflexivity.
  split; [exact H1|]; split; [exact H2|].
  exact (NetExtra.feed_unknown_name_partial net_data [Net.FedName "data"%string]
           "conv9"%string [] [4%nat] H1 H2).
Defined.

Lemma auto_naming_fresh_witness :
  Net.auto_named "conv"%string (Net.layers net_conv) 2
  /\ Net.terminals net_conv <> []
  /\ op7 net_conv (Net.input_of (Net.terminals net_conv)) (Net.auto_name "conv" 3) = inr 7%nat
  /\ Net.get_unique_name net_conv "conv" = "conv_3"%string
  /\ ~ In "conv_3"%string (map fst (Net.layers net_conv))
  /\ (let '(res, self') := Net.layer_decorated "conv" op7 net_conv None in
      res = inr tt
      /\ Net.layers self'
         = [("data"%string, 4%nat); ("conv_1"%string, 5%nat); ("conv_2"%string, 6%nat);
            ("conv_3"%string, 7%nat)]
      /\ Net.auto_named "conv" (Net.layers self') 3).
Proof.
  assert (H1 : Net.auto_named "conv"%string (Net.layers net_conv) 2).
  { split.
    - simpl; repeat constructor; simpl; intuition discriminate.
    - intros k; split.
      + intros [Hin Hp]; simpl in Hin; destruct Hin as [<- | [<- | [<- | []]]].
        * vm_compute in Hp; discriminate.
        * exists 1%nat; split; [lia | reflexivity].
        * exists 2%nat; split; [lia | reflexivity].
      + intros [j [Hj ->]].
        destruct j as [|[|[|j]]]; try lia; split; try reflexivity; simpl; tauto. }
  assert (H2 : Net.terminals net_conv <> []) by discriminate.
  assert (H3 : op7 net_conv (Net.input_of (Net.terminals net_conv)) (Net.auto_name "conv" 3)
               = inr 7%nat) by reflexivity.
  split; [exact H1|]; split; [exact H2|]; split; [exact H3|].
  exact (NetExtra.auto_naming_fresh "conv" op7 net_conv 2 7%nat H1 H2 H3).
Defined.

